(** * Honeypot dashboard: the live-threat pipeline of [App.tsx] and [services/api.ts]

    A shallow embedding of the ingestion, merge, display, filter, alert and
    node-status logic of the dashboard, followed by the properties proved
    about it.

    Conventions of the model
    - JavaScript strings are modelled by [string] (sequences of 8-bit
      characters); the case mapping of [toLowerCase] is the ASCII one, so
      the model covers ASCII text.
    - JavaScript numbers that hold integers are modelled by [Z]; where the
      source does double-precision arithmetic whose rounding could matter
      ([Math.random() * 15], [requests += 1]) the rounding to a 53-bit
      significand is written out ([JS.round53]).
    - React state slices are the fields of the record [App.Dashboard]; every
      handler is a function from the state before the event to the state
      after it.  The node objects are shared between all copies of the
      [nodes] array and are mutated in place by the source, so the model
      keeps them in a heap addressed by reference. *)

From Stdlib Require Import ZArith Lia String Ascii DecimalString DecimalZ DecimalPos List Bool.
From stdpp Require Import base list strings.
Import ListNotations.

Local Open Scope string_scope.
Local Open Scope Z_scope.

(* ===================================================================== *)
(** * JavaScript primitives used by the source *)
(* ===================================================================== *)

Module JS.

(** The double quote character, for literals that contain one. *)
Definition dq : string := String (ascii_of_nat 34) EmptyString.

(** [c.toLowerCase()] on one ASCII character. *)
Definition lower_ascii (c : ascii) : ascii :=
  let n := nat_of_ascii c in
  if ((65 <=? n)%nat && (n <=? 90)%nat)%bool then ascii_of_nat (n + 32) else c.

(** [s.toLowerCase()] on ASCII text, where it changes the letters A to Z
    and nothing else.  The theorems that read it are stated for ASCII
    text ([ascii_text] below). *)
Fixpoint toLowerCase (s : string) : string :=
  match s with
  | EmptyString => EmptyString
  | String c s' => String (lower_ascii c) (toLowerCase s')
  end.

(** [s.includes(q)]: [q] occurs in [s] at some position. *)
Fixpoint includes (s q : string) : bool :=
  (String.prefix q s ||
   match s with
   | EmptyString => false
   | String _ s' => includes s' q
   end)%bool.

(** Truthiness of a string: the empty string is falsy. *)
Definition truthy (s : string) : bool := negb (String.eqb s "").

(** [a || b] on strings. *)
Definition or_else (a b : string) : string := if truthy a then a else b.

(** [String(n)] for an integer-valued number. *)
Definition String_of_number (n : Z) : string := NilZero.string_of_int (Z.to_int n).

(** [s.substring(0, n)] *)
Definition substring0 (n : nat) (s : string) : string := String.substring 0 n s.

(** Nearest-even rounding of a non-negative integer to a significand of
    53 bits: what a double keeps of an exact integer result. *)
Definition round53 (n : Z) : Z :=
  let s := Z.log2 n - 52 in
  if s <=? 0 then n
  else
    let q := Z.shiftr n s in
    let r := Z.land n (Z.ones s) in
    let half := Z.shiftl 1 (s - 1) in
    let q' := if r <? half then q
              else if half <? r then q + 1
              else if Z.even q then q else q + 1 in
    Z.shiftl q' s.

(** [n + 1] on a number holding the non-negative integer [n]. *)
Definition add1 (n : Z) : Z := round53 (n + 1).

(** A result of [Math.random()]: the double [mant * 2^(-nexp)]. *)
Record Random := mkRandom { mant : Z; nexp : Z }.

(** The doubles that [Math.random()] can return: finite, in [0, 1). *)
Definition is_random (r : Random) : Prop :=
  0 <= mant r < 2 ^ 53 /\ 0 <= nexp r <= 1074 /\ mant r < 2 ^ nexp r.

(** [Math.floor(r * k)] for a small positive integer constant [k]: the
    exact product [mant * k * 2^(-nexp)] is rounded to a double, then
    floored. *)
Definition floor_mul (r : Random) (k : Z) : Z :=
  Z.shiftr (round53 (mant r * k)) (nexp r).

(** [l.findIndex(p)]: the index of the first element that satisfies [p],
    or -1. *)
Fixpoint findIndex_from {A : Type} (p : A -> bool) (l : list A) (i : Z) : Z :=
  match l with
  | [] => -1
  | x :: l' => if p x then i else findIndex_from p l' (i + 1)
  end.

Definition findIndex {A : Type} (p : A -> bool) (l : list A) : Z := findIndex_from p l 0.

(** [a % b] on integers: the remainder takes the sign of [a]; [None] is the
    NaN of a zero divisor. *)
Definition remainder (a b : Z) : option Z :=
  if b =? 0 then None else Some (Z.rem a b).

(** [l[i]] for a computed index: [undefined] for NaN, for a negative index
    and past the end. *)
Definition element {A : Type} (l : list A) (i : option Z) : option A :=
  match i with
  | Some i => if i <? 0 then None else l !! Z.to_nat i
  | None => None
  end.

(** [[...new Set(l)]]: each value is added in turn, a value already in the
    set is not added again, and the spread lists the set in insertion
    order. *)
Definition Set_spread (l : list string) : list string :=
  fold_left (fun set x => if existsb (String.eqb x) set then set else (set ++ [x])%list) l [].

End JS.

(* ===================================================================== *)
(** * Data model ([types.ts], as used by the sources) *)
(* ===================================================================== *)

Inductive Severity := low | medium | high | critical.

Module Threat.
Record t := mk {
  id : string;
  type : string;
  ip : string;
  location : string;
  confidence : Z;
  severity : Severity;
  timestamp : string;
  image : string;
  description : string
}.
End Threat.

Inductive Status := active | under_attack | offline.

Module NodeStatus.
Record t := mk {
  id : string;
  name : string;
  region : string;
  status : Status;
  uptime : string;
  requests : Z
}.

Definition set_status (v : Status) (n : t) : t :=
  mk (id n) (name n) (region n) v (uptime n) (requests n).
Definition set_uptime (v : string) (n : t) : t :=
  mk (id n) (name n) (region n) (status n) v (requests n).
Definition set_requests (v : Z) (n : t) : t :=
  mk (id n) (name n) (region n) (status n) (uptime n) v.
End NodeStatus.

(* ===================================================================== *)
(** * [services/api.ts] *)
(* ===================================================================== *)

Module Api.

(** Lookup of a string key in an object literal used as a table. *)
Fixpoint table_get {V : Type} (tbl : list (string * V)) (key : string) : option V :=
  match tbl with
  | [] => None
  | (k, v) :: rest => if String.eqb k key then Some v else table_get rest key
  end.

Definition unsplash (photo : string) : string :=
  "https://images.unsplash.com/photo-" ++ photo ++ "?q=80&w=1000&auto=format&fit=crop".

Definition THREAT_IMAGES : list (string * string) :=
  [ ("SQL Injection", unsplash "1558494949-efc02570fbc9");
    ("XSS", unsplash "1526374965328-7f61d4dc18c5");
    ("Brute Force", unsplash "1614064641938-3bbee52942c7");
    ("Directory Traversal", unsplash "1516110833967-0b5716ca1387");
    ("Port Scan", unsplash "1544197150-b99a580bbcbf");
    ("Command Injection", unsplash "1555949963-aa79dcee981c");
    ("default", unsplash "1550751827-4bd374c3f58b") ].

Definition severityMap : list (string * Severity) :=
  [ ("SQL Injection", critical);
    ("Command Injection", critical);
    ("XSS", high);
    ("Directory Traversal", high);
    ("Brute Force", medium);
    ("Port Scan", low);
    ("Normal", low) ].

(** [severityMap[attackType] || 'medium'] *)
Definition getSeverity (attackType : string) : Severity :=
  match table_get severityMap attackType with
  | Some v => v
  | None => medium
  end.

(** [getConfidence]; [rnd] is the value returned by [Math.random()]. *)
Definition getConfidence (attackType : string) (rnd : JS.Random) : Z :=
  if String.eqb attackType "Normal" then JS.floor_mul rnd 30 + 20
  else JS.floor_mul rnd 15 + 85.

Record BackendAttackLog := mkLog {
  log_id : Z;
  log_timestamp : string;
  ip_address : string;
  country : string;
  city : string;
  endpoint : string;
  method : string;
  payload : option string;
  user_agent : string;
  attack_type : string
}.

(** What [transformToThreat] takes from its environment: the random draw
    of [getConfidence] and the locale formatting of the time stamp
    ([new Date(ts + 'Z').toLocaleTimeString('en-US', ...)]). *)
Record Env := mkEnv {
  random : JS.Random;
  toLocaleTimeString : string -> string
}.

Definition transformToThreat (env : Env) (log : BackendAttackLog) : Threat.t :=
  let location :=
    if (JS.truthy (city log) && negb (String.eqb (city log) "Unknown"))%bool
    then city log ++ ", " ++ country log
    else JS.or_else (country log) "Unknown" in
  let attackType := JS.or_else (attack_type log) "Unknown" in
  let image :=
    match table_get THREAT_IMAGES attackType with
    | Some v => v
    | None => unsplash "1550751827-4bd374c3f58b"
    end in
  let request_summary :=
    "Request to " ++ endpoint log ++ " endpoint via " ++ method log
      ++ ". User-Agent: " ++ JS.or_else (JS.substring0 50 (user_agent log)) "Unknown" ++ "..." in
  Threat.mk
    (JS.String_of_number (log_id log))
    attackType
    (ip_address log)
    location
    (getConfidence attackType (random env))
    (getSeverity attackType)
    (toLocaleTimeString env (log_timestamp log ++ "Z"))
    image
    (match payload log with
     | Some p =>
         if JS.truthy p then
           "Payload detected: " ++ JS.dq ++ JS.substring0 100 p
             ++ (if (100 <? String.length p)%nat then "..." else "")
             ++ JS.dq ++ ". Target: " ++ endpoint log ++ " [" ++ method log ++ "]"
         else request_summary
     | None => request_summary
     end).

(** ** [blockIP] *)

(** Exceptions, and computations that may throw. *)
Inductive Exn := NetworkError | Error (msg : string) | SyntaxError.

Definition M (A : Type) : Type := Exn + A.
Definition ret {A} (a : A) : M A := inr a.
Definition throw {A} (e : Exn) : M A := inl e.
Definition bind {A B} (m : M A) (k : A -> M B) : M B :=
  match m with
  | inl e => inl e
  | inr a => k a
  end.
Definition try_catch {A} (body : M A) (handler : Exn -> M A) : M A :=
  match body with
  | inl e => handler e
  | inr a => inr a
  end.

Notation "x <- m ;; k" := (bind m (fun x => k))
  (at level 100, m at next level, right associativity).

(** The reply of the server to [POST /api/block-ip]. *)
Record BlockResult := mkBlockResult { success : bool; message : string }.

(** A response: its [ok] flag and its body, [None] when the body is not
    JSON ([response.json()] rejects). *)
Record Response := mkResponse { ok : bool; body : option BlockResult }.

(** How one [fetch] ends: it rejects, or it resolves to a response. *)
Inductive FetchOutcome := Rejected | Resolved (r : Response).

Definition fetch (o : FetchOutcome) : M Response :=
  match o with
  | Rejected => throw NetworkError
  | Resolved r => ret r
  end.

Definition json (r : Response) : M BlockResult :=
  match body r with
  | Some v => ret v
  | None => throw SyntaxError
  end.

Definition blockIP (ip : string) (o : FetchOutcome) : M BlockResult :=
  try_catch
    (response <- fetch o ;;
     if negb (ok response) then throw (Error "Failed to block IP")
     else json response)
    (fun error => ret (mkBlockResult false "Failed to block IP address")).

(** ** [getApiBase] *)

Definition RENDER_BACKEND_URL : string :=
  "https://honeypot-in-a-box-computer-security-w267.onrender.com".

(** [getApiBase], as a function of [window.location.hostname]. *)
Definition getApiBase (hostname : string) : string :=
  if (JS.includes hostname "onrender.com" || JS.includes hostname "vercel.app")%bool
  then RENDER_BACKEND_URL
  else if (negb (String.eqb hostname "localhost") && negb (String.eqb hostname "127.0.0.1"))%bool
  then "http://" ++ hostname ++ ":5000"
  else "".

(** ** [fetchThreats] *)

(** A response to [GET /api/threats]: its [ok] flag and its body, [None]
    when [response.json()] rejects. *)
Record ThreatsResponse := mkThreatsResponse {
  threats_ok : bool;
  threats_body : option (list BackendAttackLog)
}.

Inductive ThreatsOutcome := ThreatsRejected | ThreatsResolved (r : ThreatsResponse).

(** [fetchThreats limit]; [o] is how the [fetch] ended and [envs i] is the
    environment of the call of [transformToThreat] on the record at index
    [i].  The limit goes into the URL only. *)
Definition fetchThreats (limit : Z) (envs : nat -> Env) (o : ThreatsOutcome)
  : M (list Threat.t) :=
  try_catch
    (response <- match o with
                 | ThreatsRejected => throw NetworkError
                 | ThreatsResolved r => ret r
                 end ;;
     if negb (threats_ok response) then throw (Error "Failed to fetch threats")
     else
       data <- match threats_body response with
               | Some d => ret d
               | None => throw SyntaxError
               end ;;
       ret (imap (fun i log => transformToThreat (envs i) log) data))
    (fun error => ret []).

(** ** [subscribeToLiveFeed] *)

(** The [onmessage] handler of the event source, for a subscriber
    [onThreat] acting on a state of type [S]; [data] is the parsed message,
    [None] when [JSON.parse] throws.  A failure is logged and the message
    is dropped. *)
Definition onmessage {S : Type} (onThreat : Threat.t -> S -> option S)
  (env : Env) (data : option BackendAttackLog) (s : S) : option S :=
  match data with
  | Some log => onThreat (transformToThreat env log) s
  | None => Some s
  end.

End Api.

(* ===================================================================== *)
(** * [contexts/AuthContext.tsx] and [components/LoginPage.tsx] *)
(* ===================================================================== *)

Module Auth.

Definition ADMIN_username : string := "admin".
Definition ADMIN_password : string := "honeypot123".

(** What [JSON.parse] makes of a stored text, as far as the provider looks
    at it: [null], an object with its [username] property if it has one,
    or any other value (whose [username] is [undefined]). *)
Inductive Json := JNull | JObject (username : option string) | JOther.

(** The value of the session storage key [honeypot_auth]: the empty text,
    or a text with its parse, [None] when it is not JSON. *)
Inductive Stored := EmptyText | Text (parsed : option Json).

(** The state of [AuthProvider]. *)
Record Provider := mkProvider { isAuthenticated : bool; user : option string }.

Definition initial : Provider := mkProvider false None.

(** The effect run on mount; [storage] is the stored value, if any.
    [None] stands for an exception ([SyntaxError] of [JSON.parse], or the
    [TypeError] of reading a property of [null]). *)
Definition onMount (storage : option Stored) (p : Provider) : option Provider :=
  match storage with
  | None => Some p
  | Some EmptyText => Some p
  | Some (Text None) => None
  | Some (Text (Some JNull)) => None
  | Some (Text (Some (JObject username))) => Some (mkProvider true username)
  | Some (Text (Some JOther)) => Some (mkProvider true None)
  end.

(** [login username password], after its delay: the result, the provider
    and the storage.  The stored text is the JSON of an object with the
    user name and a time stamp, which nothing reads. *)
Definition login (username password : string) (p : Provider) (storage : option Stored)
  : bool * Provider * option Stored :=
  if (String.eqb username ADMIN_username && String.eqb password ADMIN_password)%bool
  then (true, mkProvider true (Some username), Some (Text (Some (JObject (Some username)))))
  else (false, p, storage).

Definition logout (p : Provider) (storage : option Stored) : Provider * option Stored :=
  (mkProvider false None, None).

(** The state of [LoginPage]. *)
Record LoginPage := mkLoginPage {
  username : string;
  password : string;
  showPassword : bool;
  error : string;
  isLoading : bool
}.

(** [handleSubmit], from the submit to the end of the handler. *)
Definition handleSubmit (page : LoginPage) (p : Provider) (storage : option Stored)
  : LoginPage * Provider * option Stored :=
  let page := mkLoginPage (username page) (password page) (showPassword page) "" (isLoading page) in
  let page := mkLoginPage (username page) (password page) (showPassword page) (error page) true in
  let '(success, p, storage) := login (username page) (password page) p storage in
  let page :=
    if negb success
    then mkLoginPage (username page) (password page) (showPassword page)
           "Invalid credentials. Access denied." (isLoading page)
    else page in
  (mkLoginPage (username page) (password page) (showPassword page) (error page) false, p, storage).

(** [AppContent]: the component that is rendered. *)
Inductive Screen := ShowDashboard | ShowLoginPage.

Definition AppContent (p : Provider) : Screen :=
  if isAuthenticated p then ShowDashboard else ShowLoginPage.

End Auth.

(* ===================================================================== *)
(** * [App.tsx]: the [Dashboard] component *)
(* ===================================================================== *)

Module App.

Definition MOCK_THREAT_LOGS : list Threat.t :=
  [ Threat.mk "1" "SQL Injection" "203.0.113.45" "Shanghai, CN" 98 critical "10:42:05 UTC"
      (Api.unsplash "1558494949-efc02570fbc9")
      ("Payload detected: " ++ JS.dq ++ "' OR 1=1 --" ++ JS.dq
         ++ ". ML Model classified as malicious SQL interaction. Target: /login endpoint.");
    Threat.mk "2" "XSS Attempt" "198.51.100.23" "St. Petersburg, RU" 92 high "10:41:12 UTC"
      (Api.unsplash "1526374965328-7f61d4dc18c5")
      "Reflected Cross-Site Scripting vector identified in search parameter. Script tags detected in encoded URL.";
    Threat.mk "3" "SSH Brute Force" "185.199.108.153" "Lagos, NG" 89 medium "10:38:55 UTC"
      (Api.unsplash "1614064641938-3bbee52942c7")
      "Rapid authentication failures detected on port 22. 50 attempts in 3 seconds. Pattern matches dictionary attack.";
    Threat.mk "4" "Directory Traversal" "45.33.22.11" "Frankfurt, DE" 95 high "10:35:01 UTC"
      (Api.unsplash "1516110833967-0b5716ca1387")
      ("Path manipulation attempt: " ++ JS.dq ++ "../../../etc/passwd" ++ JS.dq
         ++ ". Blocked by WAF rule set #402.");
    Threat.mk "5" "Port Scanning" "104.244.42.1" "New York, US" 75 low "10:30:22 UTC"
      (Api.unsplash "1544197150-b99a580bbcbf")
      "Sequential TCP SYN scan detected across ports 1000-2000. Low rate, likely reconnaissance.";
    Threat.mk "6" "Command Injection" "91.234.11.8" "Bucharest, RO" 99 critical "10:28:15 UTC"
      (Api.unsplash "1555949963-aa79dcee981c")
      ("System call injected into image upload handler: " ++ JS.dq ++ "; cat /etc/shadow" ++ JS.dq
         ++ ". Execution prevented in sandbox.") ].

Inductive ToastType := toast_success | toast_error.

Record Toast := mkToast { message : string; type : ToastType }.

(** The state of the component.  [nodes] is the array held in React state;
    its elements are references into [objects], the node objects, which the
    source mutates in place and which every copy of the array shares.
    [timeouts] are the pending [setTimeout] callbacks of
    [handleNodeAction], oldest first (they all have the same delay), each
    with the [index] and the [nodes] array its closure captured.  [posted]
    logs the bodies POSTed to [/api/block-ip]. *)
Record Dashboard := mkDashboard {
  selectedThreat : option Threat.t;
  liveThreats : list Threat.t;
  isBackendConnected : bool;
  toast : option Toast;
  attackAlert : option Threat.t;
  isAlertAcknowledged : bool;
  searchQuery : string;
  filterType : string;
  rebootingIndex : option nat;
  nodes : list nat;
  objects : list NodeStatus.t;
  timeouts : list (nat * list nat);
  posted : list string
}.

Definition setSelectedThreat (v : option Threat.t) (s : Dashboard) : Dashboard :=
  mkDashboard v (liveThreats s) (isBackendConnected s) (toast s) (attackAlert s)
    (isAlertAcknowledged s) (searchQuery s) (filterType s) (rebootingIndex s)
    (nodes s) (objects s) (timeouts s) (posted s).
Definition setLiveThreats (f : list Threat.t -> list Threat.t) (s : Dashboard) : Dashboard :=
  mkDashboard (selectedThreat s) (f (liveThreats s)) (isBackendConnected s) (toast s) (attackAlert s)
    (isAlertAcknowledged s) (searchQuery s) (filterType s) (rebootingIndex s)
    (nodes s) (objects s) (timeouts s) (posted s).
Definition setIsBackendConnected (v : bool) (s : Dashboard) : Dashboard :=
  mkDashboard (selectedThreat s) (liveThreats s) v (toast s) (attackAlert s)
    (isAlertAcknowledged s) (searchQuery s) (filterType s) (rebootingIndex s)
    (nodes s) (objects s) (timeouts s) (posted s).
Definition setToast (v : option Toast) (s : Dashboard) : Dashboard :=
  mkDashboard (selectedThreat s) (liveThreats s) (isBackendConnected s) v (attackAlert s)
    (isAlertAcknowledged s) (searchQuery s) (filterType s) (rebootingIndex s)
    (nodes s) (objects s) (timeouts s) (posted s).
Definition setAttackAlert (v : option Threat.t) (s : Dashboard) : Dashboard :=
  mkDashboard (selectedThreat s) (liveThreats s) (isBackendConnected s) (toast s) v
    (isAlertAcknowledged s) (searchQuery s) (filterType s) (rebootingIndex s)
    (nodes s) (objects s) (timeouts s) (posted s).
Definition setIsAlertAcknowledged (v : bool) (s : Dashboard) : Dashboard :=
  mkDashboard (selectedThreat s) (liveThreats s) (isBackendConnected s) (toast s) (attackAlert s)
    v (searchQuery s) (filterType s) (rebootingIndex s)
    (nodes s) (objects s) (timeouts s) (posted s).
Definition setSearchQuery (v : string) (s : Dashboard) : Dashboard :=
  mkDashboard (selectedThreat s) (liveThreats s) (isBackendConnected s) (toast s) (attackAlert s)
    (isAlertAcknowledged s) v (filterType s) (rebootingIndex s)
    (nodes s) (objects s) (timeouts s) (posted s).
Definition setFilterType (v : string) (s : Dashboard) : Dashboard :=
  mkDashboard (selectedThreat s) (liveThreats s) (isBackendConnected s) (toast s) (attackAlert s)
    (isAlertAcknowledged s) (searchQuery s) v (rebootingIndex s)
    (nodes s) (objects s) (timeouts s) (posted s).
Definition setRebootingIndex (v : option nat) (s : Dashboard) : Dashboard :=
  mkDashboard (selectedThreat s) (liveThreats s) (isBackendConnected s) (toast s) (attackAlert s)
    (isAlertAcknowledged s) (searchQuery s) (filterType s) v
    (nodes s) (objects s) (timeouts s) (posted s).
Definition setNodes (v : list nat) (s : Dashboard) : Dashboard :=
  mkDashboard (selectedThreat s) (liveThreats s) (isBackendConnected s) (toast s) (attackAlert s)
    (isAlertAcknowledged s) (searchQuery s) (filterType s) (rebootingIndex s)
    v (objects s) (timeouts s) (posted s).
Definition setObjects (v : list NodeStatus.t) (s : Dashboard) : Dashboard :=
  mkDashboard (selectedThreat s) (liveThreats s) (isBackendConnected s) (toast s) (attackAlert s)
    (isAlertAcknowledged s) (searchQuery s) (filterType s) (rebootingIndex s)
    (nodes s) v (timeouts s) (posted s).
Definition setTimeouts (v : list (nat * list nat)) (s : Dashboard) : Dashboard :=
  mkDashboard (selectedThreat s) (liveThreats s) (isBackendConnected s) (toast s) (attackAlert s)
    (isAlertAcknowledged s) (searchQuery s) (filterType s) (rebootingIndex s)
    (nodes s) (objects s) v (posted s).
Definition setPosted (v : list string) (s : Dashboard) : Dashboard :=
  mkDashboard (selectedThreat s) (liveThreats s) (isBackendConnected s) (toast s) (attackAlert s)
    (isAlertAcknowledged s) (searchQuery s) (filterType s) (rebootingIndex s)
    (nodes s) (objects s) (timeouts s) v.

(** The first render: the arguments of the [useState] calls. *)
Definition initial : Dashboard :=
  mkDashboard None [] false None None false "" "all" None
    [0; 1; 2]%nat
    [ NodeStatus.mk "n1" "Web-Honeypot-01" "US-East" active "14d 2h" 4521;
      NodeStatus.mk "n2" "DB-Trap-Alpha" "EU-West" under_attack "2d 5h" 12890;
      NodeStatus.mk "n3" "SSH-Decoy-X" "AP-South" active "45d 1h" 890 ]
    [] [].

(** ** Display composition and filter *)

Definition allThreats (isBackendConnected : bool) (liveThreats : list Threat.t) : list Threat.t :=
  if (isBackendConnected && (0 <? length liveThreats)%nat)%bool
  then liveThreats
         ++ take (Z.to_nat (Z.max 0 (6 - Z.of_nat (length liveThreats)))) MOCK_THREAT_LOGS
  else MOCK_THREAT_LOGS.

Definition matchesSearch (searchQuery : string) (threat : Threat.t) : bool :=
  (String.eqb searchQuery ""
   || JS.includes (JS.toLowerCase (Threat.type threat)) (JS.toLowerCase searchQuery)
   || JS.includes (JS.toLowerCase (Threat.ip threat)) (JS.toLowerCase searchQuery)
   || JS.includes (JS.toLowerCase (Threat.location threat)) (JS.toLowerCase searchQuery)
   || JS.includes (JS.toLowerCase (Threat.description threat)) (JS.toLowerCase searchQuery))%bool.

Definition matchesFilter (filterType : string) (threat : Threat.t) : bool :=
  (String.eqb filterType "all" || String.eqb (Threat.type threat) filterType)%bool.

Definition filteredThreats (searchQuery filterType : string) (allThreats : list Threat.t)
  : list Threat.t :=
  List.filter (fun threat => (matchesSearch searchQuery threat && matchesFilter filterType threat)%bool)
    allThreats.

(** The two numbers of the line Showing n of m threats:
    [filteredThreats.slice(0, 6).length] and [filteredThreats.length]. *)
Definition shownCount (searchQuery filterType : string) (allThreats : list Threat.t) : nat :=
  length (take 6 (filteredThreats searchQuery filterType allThreats)).
Definition matchCount (searchQuery filterType : string) (allThreats : list Threat.t) : nat :=
  length (filteredThreats searchQuery filterType allThreats).

(** ** The live feed: the [onThreat] callback of [subscribeToLiveFeed] *)

(** The updater given to [setLiveThreats]. *)
Definition liveThreatsUpdater (newThreat : Threat.t) (prev : list Threat.t) : list Threat.t :=
  let exists_ := existsb (fun t => String.eqb (Threat.id t) (Threat.id newThreat)) prev in
  if exists_ then prev else take 50 (newThreat :: prev).

(** The updater given to [setNodes]: [updated] is a copy of the array, the
    two assignments write through [updated[0]] into the shared object.
    [None] stands for the [TypeError] of an [undefined] element. *)
Definition nodesUpdater (prevNodes : list nat) (objs : list NodeStatus.t)
  : option (list nat * list NodeStatus.t) :=
  let updated := prevNodes in
  r ← updated !! 0%nat;
  o ← objs !! r;
  let objs1 := <[r := NodeStatus.set_status under_attack o]> objs in
  o1 ← objs1 !! r;
  let objs2 := <[r := NodeStatus.set_requests (JS.add1 (NodeStatus.requests o1)) o1]> objs1 in
  Some (updated, objs2).

(** [onThreat newThreat]; the audio cue has no effect on the state and
    its failures are swallowed. *)
Definition onThreat (newThreat : Threat.t) (s : Dashboard) : option Dashboard :=
  let s := setLiveThreats (liveThreatsUpdater newThreat) s in
  let s := setIsBackendConnected true s in
  let s := setAttackAlert (Some newThreat) s in
  let s := setIsAlertAcknowledged false s in
  '(updated, objs) ← nodesUpdater (nodes s) (objects s);
  Some (setObjects objs (setNodes updated s)).

(** The continuation of [fetchThreats(20)]. *)
Definition onSeed (threats : list Threat.t) (s : Dashboard) : Dashboard :=
  if (0 <? length threats)%nat
  then setIsBackendConnected true (setLiveThreats (fun _ => threats) s)
  else s.

(** ** The alert panel *)

Definition acknowledge (s : Dashboard) : Dashboard := setIsAlertAcknowledged true s.
Definition dismiss (s : Dashboard) : Dashboard := setAttackAlert None s.
Definition viewDetails (s : Dashboard) : Dashboard :=
  setAttackAlert None (setSelectedThreat (attackAlert s) s).

(** The states of the alert, read off the two state slices. *)
Inductive AlertState := Idle | ActiveUnacknowledged | ActiveAcknowledged.

Definition alertState (s : Dashboard) : AlertState :=
  match attackAlert s with
  | None => Idle
  | Some _ => if isAlertAcknowledged s then ActiveAcknowledged else ActiveUnacknowledged
  end.

(** ** Block IP *)

(** [handleBlockIP] up to its [await]: the request is sent. *)
Definition handleBlockIP_send (ip : string) (s : Dashboard) : Dashboard :=
  setPosted (posted s ++ [ip]) s.

(** [handleBlockIP] after its [await], on the state of that moment; [o] is
    how the [fetch] ended. *)
Definition handleBlockIP_resume (ip : string) (o : Api.FetchOutcome) (s : Dashboard)
  : Api.M Dashboard :=
  Api.bind (Api.blockIP ip o) (fun result =>
  if Api.success result then
    Api.ret (setSelectedThreat None
               (setToast (Some (mkToast (Api.message result) toast_success)) s))
  else
    Api.ret (setToast (Some (mkToast (Api.message result) toast_error)) s)).

Definition handleBlockIP (ip : string) (o : Api.FetchOutcome) (s : Dashboard) : Api.M Dashboard :=
  handleBlockIP_resume ip o (handleBlockIP_send ip s).

(** ** Node controls *)

(** The element of the [nodes] array at index [i], read through its
    reference. *)
Definition nodeAt (s : Dashboard) (i : nat) : option NodeStatus.t :=
  r ← nodes s !! i; objects s !! r.

(** [handleNodeAction index]: the flag is set and the timeout is scheduled;
    its closure keeps [index] and the [nodes] of this render. *)
Definition handleNodeAction (index : nat) (s : Dashboard) : Dashboard :=
  setTimeouts (timeouts s ++ [(index, nodes s)]) (setRebootingIndex (Some index) s).

(** The [disabled] attribute of the reboot button of node [i]. *)
Definition isRebooting (s : Dashboard) (i : nat) : bool :=
  match rebootingIndex s with
  | Some j => Nat.eqb j i
  | None => false
  end.

(** A click on the reboot button of node [i]: there is one button per
    element of [nodes], and a disabled button does not call its handler. *)
Definition clickReboot (i : nat) (s : Dashboard) : Dashboard :=
  if (i <? length (nodes s))%nat then
    if isRebooting s i then s else handleNodeAction i s
  else s.

(** The body of one timeout, with the [index] and [nodes] of its closure.
    [None] stands for the [TypeError] of an [undefined] element. *)
Definition rebootTimeoutBody (index : nat) (captured : list nat) (s : Dashboard)
  : option Dashboard :=
  let s := setRebootingIndex None s in
  let newNodes := captured in
  r ← newNodes !! index;
  o ← objects s !! r;
  let status' :=
    match NodeStatus.status o with
    | active => offline
    | _ => active
    end in
  let objs1 := <[r := NodeStatus.set_status status' o]> (objects s) in
  o1 ← objs1 !! r;
  let objs2 := <[r := NodeStatus.set_uptime "0d 0h" o1]> objs1 in
  Some (setNodes newNodes (setObjects objs2 s)).

(** The oldest pending timeout fires (2500 ms after it was scheduled). *)
Definition rebootTimeout (s : Dashboard) : option Dashboard :=
  match timeouts s with
  | [] => Some s
  | (index, captured) :: rest => rebootTimeoutBody index captured (setTimeouts rest s)
  end.

(** ** Events *)

Inductive Event :=
| Seed (threats : list Threat.t)
| StreamThreat (newThreat : Threat.t)
| Acknowledge
| Dismiss
| ViewDetails
| SelectThreat (t : Threat.t)
| CloseDetails
| Search (query : string)
| Filter (type : string)
| BlockIPClick
| BlockIPResume (ip : string) (o : Api.FetchOutcome)
| ToastTimeout
| RebootClick (i : nat)
| RebootTimeout.

(** One reaction of the component; [None] is an uncaught exception.  The
    alert buttons exist only while the panel is rendered, the acknowledge
    button only while the alert is not acknowledged, and the block button
    only while a detail view is open. *)
Definition step (e : Event) (s : Dashboard) : option Dashboard :=
  match e with
  | Seed threats => Some (onSeed threats s)
  | StreamThreat newThreat => onThreat newThreat s
  | Acknowledge =>
      match attackAlert s with
      | Some _ => if isAlertAcknowledged s then Some s else Some (acknowledge s)
      | None => Some s
      end
  | Dismiss =>
      match attackAlert s with
      | Some _ => Some (dismiss s)
      | None => Some s
      end
  | ViewDetails =>
      match attackAlert s with
      | Some _ => Some (viewDetails s)
      | None => Some s
      end
  | SelectThreat t => Some (setSelectedThreat (Some t) s)
  | CloseDetails => Some (setSelectedThreat None s)
  | Search query => Some (setSearchQuery query s)
  | Filter type => Some (setFilterType type s)
  | BlockIPClick =>
      match selectedThreat s with
      | Some t => Some (handleBlockIP_send (Threat.ip t) s)
      | None => Some s
      end
  | BlockIPResume ip o =>
      match handleBlockIP_resume ip o s with
      | inr s' => Some s'
      | inl _ => None
      end
  | ToastTimeout => Some (setToast None s)
  | RebootClick i => Some (clickReboot i s)
  | RebootTimeout => rebootTimeout s
  end.

(** A run: the events in the order they are handled. *)
Fixpoint run (es : list Event) (s : Dashboard) : option Dashboard :=
  match es with
  | [] => Some s
  | e :: es' => s' ← step e s; run es' s'
  end.

(** The states the component can be in. *)
Definition reachable (s : Dashboard) : Prop := exists es, run es initial = Some s.

(** ** Detail view navigation *)

Inductive Direction := Next | Prev.

(** [navigateThreat direction], with the [selectedThreat] and the
    [allThreats] of its closure.  The outer [None] is the early return;
    otherwise the value given to [setSelectedThreat], [None] for
    [undefined]. *)
Definition navigateThreat (direction : Direction) (selectedThreat : option Threat.t)
  (allThreats : list Threat.t) : option (option Threat.t) :=
  match selectedThreat with
  | None => None
  | Some selected =>
      let currentIndex :=
        JS.findIndex (fun a => String.eqb (Threat.id a) (Threat.id selected)) allThreats in
      let nextIndex :=
        match direction with
        | Next => JS.remainder (currentIndex + 1) (Z.of_nat (length allThreats))
        | Prev =>
            JS.remainder (currentIndex - 1 + Z.of_nat (length allThreats))
              (Z.of_nat (length allThreats))
        end in
      Some (JS.element allThreats nextIndex)
  end.

(** [handleKeyDown], with the values of its closure. *)
Definition handleKeyDown (key : string) (selectedThreat : option Threat.t)
  (allThreats : list Threat.t) : option (option Threat.t) :=
  match selectedThreat with
  | None => None
  | Some _ =>
      if String.eqb key "ArrowLeft" then navigateThreat Prev selectedThreat allThreats
      else if String.eqb key "ArrowRight" then navigateThreat Next selectedThreat allThreats
      else if String.eqb key "Escape" then Some None
      else None
  end.

(** A click on one of the two navigation buttons of the detail view. *)
Definition clickNavigate (direction : Direction) (s : Dashboard) : Dashboard :=
  match navigateThreat direction (selectedThreat s)
          (allThreats (isBackendConnected s) (liveThreats s)) with
  | Some v => setSelectedThreat v s
  | None => s
  end.

(** ** Filter controls *)

(** The options of the type filter. *)
Definition attackTypes (allThreats : list Threat.t) : list string :=
  "all" :: JS.Set_spread (map Threat.type allThreats).

(** The button that clears both filters. *)
Definition clearFilters (s : Dashboard) : Dashboard :=
  setFilterType "all" (setSearchQuery "" s).

(** ** The effect run on mount *)

(** The seed: [fetchThreats(20)] and its continuation. *)
Definition seedOnMount (envs : nat -> Api.Env) (o : Api.ThreatsOutcome) (s : Dashboard)
  : Api.M Dashboard :=
  Api.bind (Api.fetchThreats 20 envs o) (fun threats => Api.ret (onSeed threats s)).

(** The message handler of the subscription made on mount. *)
Definition onFeedMessage (env : Api.Env) (data : option Api.BackendAttackLog) (s : Dashboard)
  : option Dashboard :=
  Api.onmessage onThreat env data s.

(** The messages of the feed, handled in order, each with the environment
    of its transform. *)
Fixpoint feed (msgs : list (Api.Env * option Api.BackendAttackLog)) (s : Dashboard)
  : option Dashboard :=
  match msgs with
  | [] => Some s
  | (env, data) :: msgs' => s' ← onFeedMessage env data s; feed msgs' s'
  end.

End App.

(* ===================================================================== *)
(** * Vocabulary of the properties *)
(* ===================================================================== *)

(** ** The threat store *)

(** The ids of a store, in store order. *)
Definition ids (store : list Threat.t) : list string := Threat.id <$> store.

(** The store after a sequence of arrivals, first arrival first. *)
Definition arrivals (ts : list Threat.t) (store : list Threat.t) : list Threat.t :=
  fold_left (fun st t => App.liveThreatsUpdater t st) ts store.

(** The invariant of the store: distinct ids, at most 50 entries. *)
Definition store_ok (store : list Threat.t) : Prop :=
  NoDup (ids store) /\ (length store <= 50)%nat.

(** The store against the ids that have arrived so far: it holds only
    such ids, and all of them as long as it is not full. *)
Definition store_tracks (store : list Threat.t) (seen : list string) : Prop :=
  store_ok store
  /\ (forall x, x ∈ ids store -> x ∈ seen)
  /\ ((length store < 50)%nat -> forall x, x ∈ seen -> x ∈ ids store).

(** ** The nodes *)

(** The shape of the node state that every reachable state has: three
    objects, the array [nodes] holding their references in order, and the
    same array in the closure of every pending timeout. *)
Definition nodes_ok (s : App.Dashboard) : Prop :=
  App.nodes s = [0; 1; 2]%nat
  /\ length (App.objects s) = 3%nat
  /\ Forall (fun p : nat * list nat => (p.1 < 3)%nat /\ p.2 = [0; 1; 2]%nat) (App.timeouts s).

(** The counter of a node is an integer that a double holds exactly, and
    so is its successor. *)
Definition safe_counter (n : Z) : Prop := 0 <= n < 2 ^ 53.

(** What the attack side effect does to a node object. *)
Definition attacked (o : NodeStatus.t) : NodeStatus.t :=
  NodeStatus.mk (NodeStatus.id o) (NodeStatus.name o) (NodeStatus.region o)
    under_attack (NodeStatus.uptime o) (NodeStatus.requests o + 1).

(** What a completed reboot does to a node object. *)
Definition rebooted (o : NodeStatus.t) : NodeStatus.t :=
  NodeStatus.mk (NodeStatus.id o) (NodeStatus.name o) (NodeStatus.region o)
    (match NodeStatus.status o with active => offline | _ => active end)
    "0d 0h" (NodeStatus.requests o).

(** The number of stream arrivals among the events of a run. *)
Definition count_arrivals (es : list App.Event) : nat :=
  length (List.filter (fun e => match e with App.StreamThreat _ => true | _ => false end) es).

(** A timeout of [handleNodeAction i] is pending. *)
Definition reboot_pending (s : App.Dashboard) (i : nat) : Prop :=
  In i (map fst (App.timeouts s)).

(** The number of timeouts that fire among the events of a run. *)
Definition count_timeouts (es : list App.Event) : nat :=
  length (List.filter (fun e => match e with App.RebootTimeout => true | _ => false end) es).

(** A reboot of node [i] waits behind [k] timeouts, none of them of node
    [i], and the node is under attack. *)
Definition reboot_waiting (s : App.Dashboard) (i k : nat) : Prop :=
  nodes_ok s
  /\ (exists pre cap post,
        App.timeouts s = (pre ++ (i, cap) :: post)%list
        /\ length pre = k /\ ~ In i (map fst pre))
  /\ (exists o, App.nodeAt s i = Some o /\ NodeStatus.status o = under_attack).

(** ** Sample data for the scenarios *)

(** The record that the backend logs with id 1, as the feed delivers it. *)
Definition log_one : Api.BackendAttackLog :=
  Api.mkLog 1 "2024-05-01T10:00:00" "192.0.2.1" "NL" "Amsterdam" "/login" "POST"
    None "curl/8.0" "XSS".

Definition env_zero : Api.Env := Api.mkEnv (JS.mkRandom 0 0) (fun ts => ts).

(** A live threat with the given id. *)
Definition sample (id : string) : Threat.t :=
  Threat.mk id "XSS" "192.0.2.7" "Amsterdam, NL" 90 high "10:00:00 UTC"
    (Api.unsplash "1526374965328-7f61d4dc18c5") "Request to /login endpoint via POST.".

(** The dashboard after the seed fetch returned the ids a, b, c. *)
Definition seeded_abc : App.Dashboard :=
  App.onSeed [sample "a"; sample "b"; sample "c"] App.initial.

(** ** Block IP *)

(** The fallback result of [blockIP]. *)
Definition generic_failure : Api.BlockResult :=
  Api.mkBlockResult false "Failed to block IP address".

(** Two sample replies of the server to a block request: the address was
    blocked, the address was refused. *)
Definition server_blocked : Api.BlockResult :=
  Api.mkBlockResult true "IP 203.0.113.45 blocked".

Definition server_refused : Api.BlockResult :=
  Api.mkBlockResult false "Invalid IP address".

(** ** The filter, in the words of its description *)

Definition is_upper (c : ascii) : bool :=
  ((65 <=? nat_of_ascii c)%nat && (nat_of_ascii c <=? 90)%nat)%bool.

(** [b] is the lower-case form of the upper-case letter [a]. *)
Definition lower_of (a b : ascii) : Prop :=
  is_upper a = true /\ nat_of_ascii b = (nat_of_ascii a + 32)%nat.

(** Equal characters, or the two cases of one letter. *)
Definition same_letter (a b : ascii) : Prop := a = b \/ lower_of a b \/ lower_of b a.

(** Strings equal up to the case of their letters. *)
Definition ci_equal (u v : string) : Prop :=
  Forall2 same_letter (list_ascii_of_string u) (list_ascii_of_string v).

(** [q] is a case-insensitive substring of [s]. *)
Definition ci_substring (q s : string) : Prop :=
  exists pre mid post, s = pre ++ mid ++ post /\ ci_equal mid q.

(** The text predicate: the query is empty, or occurs in one of the four
    searched fields. *)
Definition text_match (query : string) (t : Threat.t) : Prop :=
  query = ""
  \/ ci_substring query (Threat.type t)
  \/ ci_substring query (Threat.ip t)
  \/ ci_substring query (Threat.location t)
  \/ ci_substring query (Threat.description t).

(** ASCII text: every character of the string has a code below 128. *)
Definition ascii_char (c : ascii) : bool := (nat_of_ascii c <? 128)%nat.

Fixpoint ascii_string (s : string) : bool :=
  match s with
  | EmptyString => true
  | String c s' => (ascii_char c && ascii_string s')%bool
  end.

(** The four searched fields of a threat are ASCII text. *)
Definition ascii_fields (t : Threat.t) : bool :=
  (ascii_string (Threat.type t) && ascii_string (Threat.ip t)
   && ascii_string (Threat.location t) && ascii_string (Threat.description t))%bool.

(** The query, and what is searched in the displayed list, are ASCII
    text. *)
Definition ascii_text (query : string) (displayed : list Threat.t) : Prop :=
  ascii_string query = true /\ forallb ascii_fields displayed = true.

(** The type predicate. *)
Definition type_match (filterType : string) (t : Threat.t) : Prop :=
  filterType = "all" \/ Threat.type t = filterType.

(** ** The transform *)

(** The two forms of the description of a threat. *)
Definition payload_text (log : Api.BackendAttackLog) (p : string) : string :=
  "Payload detected: " ++ JS.dq ++ JS.substring0 100 p
    ++ (if (100 <? String.length p)%nat then "..." else "")
    ++ JS.dq ++ ". Target: " ++ Api.endpoint log ++ " [" ++ Api.method log ++ "]".
Definition request_text (log : Api.BackendAttackLog) : string :=
  "Request to " ++ Api.endpoint log ++ " endpoint via " ++ Api.method log
    ++ ". User-Agent: " ++ JS.or_else (JS.substring0 50 (Api.user_agent log)) "Unknown" ++ "...".

(** ** The alert as a three-state machine *)

(** The transition that each event makes, in the words of the alert
    controller: an arrival makes the alert active and unacknowledged,
    acknowledging turns active-unacknowledged into active-acknowledged,
    dismissing or viewing the details makes it idle, nothing else moves
    it. *)
Definition alert_transition (e : App.Event) (a : App.AlertState) : App.AlertState :=
  match e with
  | App.StreamThreat _ => App.ActiveUnacknowledged
  | App.Acknowledge =>
      match a with
      | App.ActiveUnacknowledged => App.ActiveAcknowledged
      | _ => a
      end
  | App.Dismiss | App.ViewDetails => App.Idle
  | _ => a
  end.

(** ** The feed *)

(** A message that parses. *)
Definition parses (msg : Api.Env * option Api.BackendAttackLog) : bool :=
  match msg.2 with
  | Some _ => true
  | None => false
  end.

(** ** The nodes over a run *)

(** What never changes in the three nodes, and what changes only in the
    first: the identity of every node, the request counters of the second
    and third node, and the third node is never under attack. *)
Definition nodes_stable (s : App.Dashboard) : Prop :=
  exists o0 o1 o2,
    App.nodeAt s 0 = Some o0 /\ App.nodeAt s 1 = Some o1 /\ App.nodeAt s 2 = Some o2
    /\ App.nodeAt s 3 = None
    /\ (NodeStatus.id o0, NodeStatus.name o0, NodeStatus.region o0)
       = ("n1", "Web-Honeypot-01", "US-East")
    /\ (NodeStatus.id o1, NodeStatus.name o1, NodeStatus.region o1)
       = ("n2", "DB-Trap-Alpha", "EU-West")
    /\ (NodeStatus.id o2, NodeStatus.name o2, NodeStatus.region o2)
       = ("n3", "SSH-Decoy-X", "AP-South")
    /\ NodeStatus.requests o1 = 12890
    /\ NodeStatus.requests o2 = 890
    /\ NodeStatus.status o2 <> under_attack.

(* ===================================================================== *)
(** * The threat store: arrival merge *)
(* ===================================================================== *)

Section ThreatStore.

Import App.

Implicit Types (store : list Threat.t) (newThreat : Threat.t).

Lemma exists_id_true store newThreat :
  existsb (fun t => String.eqb (Threat.id t) (Threat.id newThreat)) store = true
  <-> Threat.id newThreat ∈ ids store.
Proof.
  unfold ids. rewrite existsb_exists, list_elem_of_fmap. split.
  - intros (t & Hin & Heq). apply String.eqb_eq in Heq.
    exists t. split; [congruence | by apply list_elem_of_In].
  - intros (t & Heq & Hin). exists t. split; [by apply list_elem_of_In |].
    apply String.eqb_eq. congruence.
Qed.

Lemma updater_duplicate store newThreat :
  Threat.id newThreat ∈ ids store -> liveThreatsUpdater newThreat store = store.
Proof.
  intros H. apply exists_id_true in H. unfold liveThreatsUpdater. by rewrite H.
Qed.

Lemma updater_fresh store newThreat :
  Threat.id newThreat ∉ ids store ->
  liveThreatsUpdater newThreat store = newThreat :: take 49 store.
Proof.
  intros H. unfold liveThreatsUpdater.
  destruct (existsb _ store) eqn:E; [| reflexivity].
  apply exists_id_true in E. contradiction.
Qed.

Lemma NoDup_ids_take n store : NoDup (ids store) -> NoDup (ids (take n store)).
Proof.
  unfold ids. rewrite fmap_take. intros H.
  eapply sublist_NoDup; [exact H | apply sublist_take].
Qed.

Lemma ids_take_subseteq n store x : x ∈ ids (take n store) -> x ∈ ids store.
Proof.
  unfold ids. rewrite fmap_take. intros H.
  eapply elem_of_submseteq; [exact H |]. apply sublist_submseteq, sublist_take.
Qed.

Lemma updater_preserves store newThreat :
  store_ok store -> store_ok (liveThreatsUpdater newThreat store).
Proof.
  intros [Hnd Hlen].
  destruct (decide (Threat.id newThreat ∈ ids store)) as [Hin | Hnin].
  - rewrite updater_duplicate by done. by split.
  - rewrite updater_fresh by done. split.
    + change (NoDup (Threat.id newThreat :: ids (take 49 store))).
      apply NoDup_cons. split; [| by apply NoDup_ids_take].
      intros Hx. apply Hnin. by eapply ids_take_subseteq.
    + cbn [length]. rewrite length_take. lia.
Qed.

Lemma arrivals_preserve ts store : store_ok store -> store_ok (arrivals ts store).
Proof.
  revert store. induction ts as [| t ts IH]; intros store Hok; [exact Hok |].
  apply IH. by apply updater_preserves.
Qed.

Lemma store_ok_empty : store_ok [].
Proof. split; [constructor | cbn; lia]. Qed.

Lemma updater_tracks store seen newThreat :
  store_tracks store seen ->
  store_tracks (liveThreatsUpdater newThreat store) (seen ++ [Threat.id newThreat]).
Proof.
  intros (Hok & Hsub & Hfull).
  split; [by apply updater_preserves |].
  destruct Hok as [Hnd Hlen].
  destruct (decide (Threat.id newThreat ∈ ids store)) as [Hin | Hnin].
  - rewrite updater_duplicate by done. split.
    + intros x Hx. apply elem_of_app. left. by apply Hsub.
    + intros Hlt x Hx. apply elem_of_app in Hx as [Hx | Hx]; [by apply Hfull |].
      apply list_elem_of_singleton in Hx. by subst x.
  - rewrite updater_fresh by done. split.
    + intros x Hx. change (x ∈ Threat.id newThreat :: ids (take 49 store)) in Hx.
      apply elem_of_cons in Hx as [-> | Hx]; apply elem_of_app.
      * right. by apply list_elem_of_singleton.
      * left. apply Hsub. by eapply ids_take_subseteq.
    + cbn [length]. rewrite length_take. intros Hlt x Hx.
      rewrite take_ge by lia.
      change (x ∈ Threat.id newThreat :: ids store).
      apply elem_of_cons. apply elem_of_app in Hx as [Hx | Hx].
      * right. apply Hfull; [lia | exact Hx].
      * left. by apply list_elem_of_singleton in Hx.
Qed.

Lemma arrivals_track ts store seen :
  store_tracks store seen -> store_tracks (arrivals ts store) (seen ++ ids ts).
Proof.
  revert store seen. induction ts as [| t ts IH]; intros store seen H.
  - cbn. by rewrite app_nil_r.
  - change (ids (t :: ts)) with ([Threat.id t] ++ ids ts)%list.
    rewrite app_assoc. apply IH. by apply updater_tracks.
Qed.

(** The size of the store counts the distinct ids that arrived, up to the
    bound of 50. *)
Lemma store_size_counts_distinct_ids (ts : list Threat.t) :
  length (arrivals ts []) = Nat.min 50 (length (remove_dups (ids ts))).
Proof.
  destruct (arrivals_track ts [] []) as ((Hnd & Hlen) & Hsub & Hfull).
  { split; [apply store_ok_empty |]. split; [intros x Hx; inversion Hx |].
    intros _ x Hx. inversion Hx. }
  rewrite app_nil_l in Hsub, Hfull.
  set (store := arrivals ts []) in *.
  assert (Hle : (length store <= length (remove_dups (ids ts)))%nat).
  { rewrite <- (length_fmap Threat.id store). apply submseteq_length.
    apply NoDup_submseteq; [exact Hnd |].
    intros x Hx. apply elem_of_remove_dups. by apply Hsub. }
  destruct (decide (length store < 50)%nat) as [Hlt | Hge]; [| lia].
  assert (Hge : (length (remove_dups (ids ts)) <= length store)%nat).
  { rewrite <- (length_fmap Threat.id store). apply submseteq_length.
    apply NoDup_submseteq; [apply NoDup_remove_dups |].
    intros x Hx. rewrite elem_of_remove_dups in Hx. apply Hfull; [lia | exact Hx]. }
  lia.
Qed.

(** C1. Arrival merge.  An arrival whose id is already in the store leaves
    the store as it is; any other arrival becomes the first element, in
    front of the old entries, of which the first 49 are kept, so that the
    result has at most 50 entries.  Hence after any sequence of arrivals,
    whatever ids repeat in it, the ids of the store are pairwise distinct
    and the store has at most 50 entries. *)
Theorem C1_arrival_merge store newThreat :
  ((exists t, In t store /\ Threat.id t = Threat.id newThreat) ->
     liveThreatsUpdater newThreat store = store)
  /\ ((forall t, In t store -> Threat.id t <> Threat.id newThreat) ->
        liveThreatsUpdater newThreat store = take 50 (newThreat :: store)
        /\ liveThreatsUpdater newThreat store = newThreat :: take 49 store
        /\ (length (liveThreatsUpdater newThreat store) <= 50)%nat)
  /\ (forall ts : list Threat.t,
        NoDup (ids (arrivals ts [])) /\ (length (arrivals ts []) <= 50)%nat)
  /\ (NoDup (ids store) -> (length store <= 50)%nat ->
      forall ts : list Threat.t,
        NoDup (ids (arrivals ts store)) /\ (length (arrivals ts store) <= 50)%nat).
Proof.
  split; [| split; [| split]]; [| | | intros Hnd Hlen ts; by apply arrivals_preserve].
  - intros (t & Hin & Heq). apply updater_duplicate.
    unfold ids. apply list_elem_of_fmap. exists t. split; [done |].
    by apply list_elem_of_In.
  - intros Hfresh.
    assert (Hnin : Threat.id newThreat ∉ ids store).
    { unfold ids. rewrite list_elem_of_fmap. intros (t & Heq & Hin).
      apply list_elem_of_In in Hin. by apply (Hfresh t Hin). }
    rewrite updater_fresh by done. split; [reflexivity |]. split; [reflexivity |].
    cbn [length]. rewrite length_take. lia.
  - intros ts. apply (arrivals_preserve ts []), store_ok_empty.
Qed.


Lemma C1_arrival_merge_witness :
  App.liveThreatsUpdater (sample "a") [sample "b"; sample "a"] = [sample "b"; sample "a"]
  /\ App.liveThreatsUpdater (sample "a") [sample "b"] = [sample "a"; sample "b"]
  /\ NoDup (ids (arrivals [sample "a"; sample "c"; sample "a"] [sample "b"])).
Proof.
  split; [| split].
  - apply (proj1 (C1_arrival_merge [sample "b"; sample "a"] (sample "a"))).
    exists (sample "a"). split; [right; left; reflexivity | reflexivity].
  - apply (proj1 (proj2 (C1_arrival_merge [sample "b"] (sample "a")))).
    intros t [<- | []]. discriminate.
  - apply (proj2 (proj2 (proj2 (C1_arrival_merge [sample "b"] (sample "a"))))).
    + apply NoDup_singleton.
    + cbn. lia.
Defined.

End ThreatStore.

(* ===================================================================== *)
(** * Display composition *)
(* ===================================================================== *)

Section Display.

Import App.

Implicit Types (live : list Threat.t) (connected : bool).

Lemma MOCK_length : length MOCK_THREAT_LOGS = 6%nat.
Proof. reflexivity. Qed.

Lemma pad_count live :
  Z.to_nat (Z.max 0 (6 - Z.of_nat (length live))) = (6 - length live)%nat.
Proof. lia. Qed.

Lemma allThreats_live connected live :
  connected = true -> live <> [] ->
  allThreats connected live = (live ++ take (6 - length live) MOCK_THREAT_LOGS)%list.
Proof.
  intros -> Hne. unfold allThreats. rewrite pad_count.
  destruct live as [| t live]; [contradiction | reflexivity].
Qed.

Lemma allThreats_fallback connected live :
  connected = false \/ live = [] -> allThreats connected live = MOCK_THREAT_LOGS.
Proof.
  unfold allThreats. intros [-> | ->]; [reflexivity |].
  cbn. by rewrite andb_false_r.
Qed.

(** C3. Display composition.  With [connected] true and a non-empty live
    store, the displayed list is the live store followed by the first
    [max(0, 6 - liveCount)] entries of the fallback corpus, which has 6
    entries: with fewer than 6 live threats the displayed list has exactly
    6 entries, with 6 or more it is the live store itself.  With
    [connected] false or an empty live store the displayed list is the
    fallback corpus.  The displayed list is never empty. *)
Theorem C3_display_composition connected live :
  (connected = true -> live <> [] ->
     allThreats connected live
       = (live ++ take (Nat.max 0 (6 - length live)) MOCK_THREAT_LOGS)%list
     /\ ((length live < 6)%nat -> length (allThreats connected live) = 6%nat)
     /\ ((6 <= length live)%nat -> allThreats connected live = live))
  /\ (connected = false \/ live = [] -> allThreats connected live = MOCK_THREAT_LOGS)
  /\ length MOCK_THREAT_LOGS = 6%nat
  /\ allThreats connected live <> [].
Proof.
  split; [| split; [| split]].
  - intros Hc Hne. rewrite allThreats_live by done.
    rewrite Nat.max_0_l. split; [reflexivity |]. split.
    + intros Hlt. rewrite length_app, length_take, MOCK_length. lia.
    + intros Hge. replace (6 - length live)%nat with 0%nat by lia.
      cbn. apply app_nil_r.
  - apply allThreats_fallback.
  - reflexivity.
  - destruct connected, live as [| t live];
      try (rewrite allThreats_fallback by auto; discriminate).
    rewrite allThreats_live by done. discriminate.
Qed.

Lemma C3_display_composition_witness :
  allThreats true (take 4 (rev MOCK_THREAT_LOGS))
    = (take 4 (rev MOCK_THREAT_LOGS) ++ take 2 MOCK_THREAT_LOGS)%list
  /\ length (allThreats true (take 4 (rev MOCK_THREAT_LOGS))) = 6%nat
  /\ allThreats false [] = MOCK_THREAT_LOGS.
Proof.
  destruct (C3_display_composition true (take 4 (rev MOCK_THREAT_LOGS))) as (Hlive & _).
  destruct (Hlive eq_refl) as (Heq & Hlen & _); [discriminate |].
  split; [exact Heq |]. split.
  - apply Hlen. cbn. lia.
  - apply (proj1 (proj2 (C3_display_composition false []))). by left.
Defined.

(** C9. Duplicate ids are suppressed in the live store only.  After the
    feed delivers the record with backend id 1, the dashboard is connected
    with one live threat, whose id is the string 1, the id of the first
    fallback entry: the ids of the live store are distinct, but the
    displayed list holds two different entries with that id. *)
Theorem C9_display_ids_not_unique :
  exists s : Dashboard,
    run [StreamThreat (Api.transformToThreat env_zero log_one)] initial = Some s
    /\ isBackendConnected s = true
    /\ (length (liveThreats s) < 6)%nat
    /\ NoDup (ids (liveThreats s))
    /\ (exists a b : Threat.t,
          allThreats (isBackendConnected s) (liveThreats s) !! 0%nat = Some a
          /\ allThreats (isBackendConnected s) (liveThreats s) !! 1%nat = Some b
          /\ a <> b
          /\ Threat.id a = "1" /\ Threat.id b = "1"
          /\ In b MOCK_THREAT_LOGS)
    /\ ~ NoDup (ids (allThreats (isBackendConnected s) (liveThreats s))).
Proof.
  eexists. split; [vm_compute; reflexivity |].
  split; [reflexivity |]. split; [cbn; lia |]. split.
  - cbn. apply NoDup_singleton.
  - split.
    + eexists _, _. split; [reflexivity |]. split; [reflexivity |].
      split; [| split; [reflexivity | split; [reflexivity | left; reflexivity]]].
      intros H. apply (f_equal Threat.type) in H. vm_compute in H. discriminate.
    + intros H. vm_compute in H. apply NoDup_cons in H as [Hnin _].
      apply Hnin. left.
Qed.

End Display.

(* ===================================================================== *)
(** * Double-precision arithmetic on integers *)
(* ===================================================================== *)

Section Doubles.

(** The rounding, once the position of the leading bit is known. *)
Lemma round53_at n s :
  0 < s -> 2 ^ (52 + s) <= n < 2 ^ (53 + s) ->
  JS.round53 n =
    (if n mod 2 ^ s <? 2 ^ (s - 1) then n / 2 ^ s
     else if 2 ^ (s - 1) <? n mod 2 ^ s then n / 2 ^ s + 1
     else if Z.even (n / 2 ^ s) then n / 2 ^ s else n / 2 ^ s + 1) * 2 ^ s.
Proof.
  intros Hs [Hlo Hhi]. unfold JS.round53.
  assert (Hn : 0 < n) by (pose proof (Z.pow_pos_nonneg 2 (52 + s)); lia).
  assert (Hlog : Z.log2 n = 52 + s).
  { apply Z.log2_unique; [lia |]. replace (Z.succ (52 + s)) with (53 + s) by lia. lia. }
  rewrite Hlog. replace (52 + s - 52) with s by lia.
  destruct (Z.leb_spec s 0) as [? | _]; [lia |].
  rewrite Z.shiftr_div_pow2, Z.land_ones, !Z.shiftl_mul_pow2, Z.mul_1_l by lia.
  reflexivity.
Qed.


Lemma round53_exact n : 0 <= n < 2 ^ 53 -> JS.round53 n = n.
Proof.
  intros [H0 H1]. unfold JS.round53.
  assert (Hs : Z.log2 n - 52 <= 0).
  { destruct (Z.eq_dec n 0) as [-> | Hn]; [cbn; lia |].
    assert (Z.log2 n < 53) by (apply Z.log2_lt_pow2; lia). lia. }
  apply Z.leb_le in Hs. by rewrite Hs.
Qed.

Lemma round53_nonneg n : 0 <= n -> 0 <= JS.round53 n.
Proof.
  intros Hn. unfold JS.round53.
  destruct (Z.leb_spec (Z.log2 n - 52) 0) as [? | Hs]; [exact Hn |].
  apply Z.shiftl_nonneg.
  assert (0 <= Z.shiftr n (Z.log2 n - 52)) by (apply Z.shiftr_nonneg; exact Hn).
  repeat match goal with |- context [if ?b then _ else _] => destruct b end; lia.
Qed.

Lemma floor_bound m e k :
  0 <= m < 2 ^ 53 -> 0 <= e -> m < 2 ^ e -> 0 < k < 2 ^ 53 ->
  0 <= Z.shiftr (JS.round53 (m * k)) e <= k - 1.
Proof.
  intros Hm He Hme Hk.
  assert (H2e : 0 < 2 ^ e) by (apply Z.pow_pos_nonneg; lia).
  rewrite Z.shiftr_div_pow2 by exact He.
  split.
  { apply Z.div_pos; [apply round53_nonneg; nia | exact H2e]. }
  enough (JS.round53 (m * k) / 2 ^ e < k) by lia.
  destruct (Z.lt_ge_cases (m * k) (2 ^ 53)) as [Hsmall | Hbig].
  { rewrite round53_exact by nia. apply Z.div_lt_upper_bound; [exact H2e | nia]. }
  set (n := m * k) in *.
  set (s := Z.log2 n - 52).
  assert (Hn : 0 < n) by lia.
  assert (Hlog : 53 <= Z.log2 n) by (apply Z.log2_le_pow2; lia).
  assert (Hs : 0 < s) by (unfold s; lia).
  destruct (Z.log2_spec n Hn) as [Hlo Hhi].
  replace (Z.log2 n) with (52 + s) in Hlo by (unfold s; lia).
  replace (Z.succ (Z.log2 n)) with (53 + s) in Hhi by (unfold s; lia).
  rewrite (round53_at n s Hs (conj Hlo Hhi)).
  assert (HH : 0 < 2 ^ (s - 1)) by (apply Z.pow_pos_nonneg; lia).
  assert (HP : 2 ^ s = 2 * 2 ^ (s - 1)).
  { replace s with (1 + (s - 1)) at 1 by lia. rewrite Z.pow_add_r by lia. reflexivity. }
  rewrite Z.pow_add_r in Hlo by lia.
  assert (HHk : 2 ^ (s - 1) < k) by nia.
  assert (Hse : s <= e).
  { assert (2 ^ (s - 1) < 2 ^ e) by nia.
    assert (s - 1 < e) by (apply (Z.pow_lt_mono_r_iff 2); lia). lia. }
  assert (HE : 2 ^ e = 2 ^ s * 2 ^ (e - s)).
  { rewrite <- Z.pow_add_r by lia. f_equal. lia. }
  assert (HE0 : 0 < 2 ^ (e - s)) by (apply Z.pow_pos_nonneg; lia).
  pose proof (Z.div_mod n (2 ^ s) ltac:(lia)) as Hdm.
  pose proof (Z.mod_pos_bound n (2 ^ s) ltac:(lia)) as Hr.
  set (q := n / 2 ^ s) in *. set (r := n mod 2 ^ s) in *.
  set (P := 2 ^ s) in *. set (H := 2 ^ (s - 1)) in *. set (E := 2 ^ (e - s)) in *.
  rewrite HE. rewrite (Z.mul_comm P E), Z.div_mul_cancel_r by lia.
  apply Z.div_lt_upper_bound; [lia |].
  assert (Hnk : n <= (P * E - 1) * k) by (unfold n; nia).
  assert (Hq : q < E * k) by nia.
  assert (Hup : H <= r -> q + 1 < E * k).
  { intros Hge. destruct (Z.lt_ge_cases (q + 1) (E * k)) as [? | Hc]; [assumption |].
    exfalso. assert (P * q >= P * (E * k - 1)) by nia. nia. }
  destruct (Z.ltb_spec r H); [lia |].
  destruct (Z.ltb_spec H r); [lia |].
  destruct (Z.even q); lia.
Qed.

Lemma round53_pow53 : JS.round53 (2 ^ 53) = 2 ^ 53.
Proof. reflexivity. Qed.

Lemma add1_exact n : safe_counter n -> JS.add1 n = n + 1.
Proof.
  intros [H0 H1]. unfold JS.add1.
  destruct (Z.eq_dec (n + 1) (2 ^ 53)) as [-> | Hne]; [apply round53_pow53 |].
  apply round53_exact. lia.
Qed.

Lemma floor_mul_bound (rnd : JS.Random) k :
  JS.is_random rnd -> 0 < k < 2 ^ 53 -> 0 <= JS.floor_mul rnd k <= k - 1.
Proof.
  intros (Hm & He & Hme) Hk. unfold JS.floor_mul. apply floor_bound; lia.
Qed.


End Doubles.

(* ===================================================================== *)
(** * The synthesized confidence *)
(* ===================================================================== *)

Section Confidence.

Import Api.

Lemma getConfidence_normal rnd :
  JS.is_random rnd -> 20 <= getConfidence "Normal" rnd <= 49.
Proof.
  intros H. unfold getConfidence. cbn [String.eqb]. cbn.
  pose proof (floor_mul_bound rnd 30 H ltac:(lia)). lia.
Qed.

Lemma getConfidence_attack attackType rnd :
  attackType <> "Normal" -> JS.is_random rnd ->
  getConfidence attackType rnd = JS.floor_mul rnd 15 + 85
  /\ 85 <= getConfidence attackType rnd <= 99.
Proof.
  intros Hne H. unfold getConfidence.
  destruct (String.eqb_spec attackType "Normal") as [-> | _]; [contradiction |].
  pose proof (floor_mul_bound rnd 15 H ltac:(lia)). lia.
Qed.

Lemma attackType_normal log :
  JS.or_else (attack_type log) "Unknown" = "Normal" <-> attack_type log = "Normal".
Proof.
  unfold JS.or_else, JS.truthy.
  destruct (String.eqb_spec (attack_type log) "") as [-> | _]; cbn; [| done].
  split; discriminate.
Qed.

Lemma transform_confidence env log :
  Threat.confidence (transformToThreat env log)
  = getConfidence (JS.or_else (attack_type log) "Unknown") (random env).
Proof. reflexivity. Qed.




(** The largest double below 1 gives an attack the confidence 99. *)
Example getConfidence_largest_draw :
  JS.is_random (JS.mkRandom (2 ^ 53 - 1) 53)
  /\ getConfidence "SQL Injection" (JS.mkRandom (2 ^ 53 - 1) 53) = 99.
Proof. split; [unfold JS.is_random; cbn; lia | reflexivity]. Qed.

End Confidence.

(* ===================================================================== *)
(** * Alert controller and node status *)
(* ===================================================================== *)

Section Nodes.

Import App.

Implicit Types (s : Dashboard) (o : NodeStatus.t) (i : nat).

(** Opens a state whose nodes have the reachable shape: the array is
    [0; 1; 2] and there are three objects. *)
Ltac open_nodes s H :=
  destruct s as [sel live conn tst alert ack qry flt ri nd objs tms pst];
  destruct H as (Hnd & Hlen & Htms); cbn in Hnd, Hlen, Htms; subst nd;
  destruct objs as [| o0 [| o1 [| o2 [| o3 objs]]]]; try discriminate Hlen;
  clear Hlen.

Lemma nodes_ok_initial : nodes_ok initial.
Proof. repeat split. constructor. Qed.

Lemma onThreat_total s newThreat :
  nodes_ok s -> exists s', onThreat newThreat s = Some s'.
Proof. intros H. open_nodes s H. eexists. reflexivity. Qed.

Lemma onThreat_nodes_ok s s' newThreat :
  nodes_ok s -> onThreat newThreat s = Some s' -> nodes_ok s'.
Proof.
  intros H Hs. open_nodes s H. injection Hs as <-. repeat split. exact Htms.
Qed.

(** Splits the pending timeouts of an opened state: the index of the
    oldest one is 0, 1 or 2 and its closure holds the array [0; 1; 2]. *)
Ltac open_timeout tms Htms idx :=
  destruct tms as [| [idx cap] rest];
  [| apply Forall_cons in Htms as [[Hidx Hcap] Hrest]; cbn in Hidx, Hcap; subst cap;
     destruct idx as [| [| [| idx]]]; [| | | exfalso; lia]; clear Hidx ].

Lemma rebootTimeout_total s : nodes_ok s -> exists s', rebootTimeout s = Some s'.
Proof.
  intros H. open_nodes s H. open_timeout tms Htms idx; eexists; reflexivity.
Qed.

Lemma rebootTimeout_nodes_ok s s' :
  nodes_ok s -> rebootTimeout s = Some s' -> nodes_ok s'.
Proof.
  intros H Hs. open_nodes s H.
  open_timeout tms Htms idx; injection Hs as <-; repeat split; done.
Qed.

Lemma clickReboot_nodes_ok i s : nodes_ok s -> nodes_ok (clickReboot i s).
Proof.
  intros H. pose proof H as (Hnd & Hlen & Htms).
  unfold clickReboot. destruct (i <? length (nodes s))%nat eqn:Hi; [| exact H].
  destruct (isRebooting s i); [exact H |].
  apply Nat.ltb_lt in Hi. rewrite Hnd in Hi. cbn in Hi.
  split; [exact Hnd |]. split; [exact Hlen |].
  cbn. apply Forall_app. split; [exact Htms |].
  apply Forall_cons. split; [| constructor]. cbn. split; [lia | exact Hnd].
Qed.

Lemma handleBlockIP_resume_state ip (out : Api.FetchOutcome) s :
  exists s', handleBlockIP_resume ip out s = inr s'
    /\ liveThreats s' = liveThreats s
    /\ isBackendConnected s' = isBackendConnected s
    /\ attackAlert s' = attackAlert s
    /\ isAlertAcknowledged s' = isAlertAcknowledged s
    /\ rebootingIndex s' = rebootingIndex s
    /\ nodes s' = nodes s /\ objects s' = objects s /\ timeouts s' = timeouts s
    /\ posted s' = posted s.
Proof.
  unfold handleBlockIP_resume.
  destruct out as [| [[] [[[] msg] |]]]; cbn; eexists; (split; [reflexivity |]);
    repeat split.
Qed.

Lemma step_total e s : nodes_ok s -> exists s', step e s = Some s'.
Proof.
  intros H. destruct e as [threats | newThreat | | | | t | | query | ftype | | ip out | | i |]; cbn [step];
    try (eexists; reflexivity);
    try (destruct (attackAlert s); [destruct (isAlertAcknowledged s) |];
         eexists; reflexivity);
    try (destruct (attackAlert s); eexists; reflexivity).
  - by apply onThreat_total.
  - destruct (selectedThreat s); eexists; reflexivity.
  - destruct (handleBlockIP_resume_state ip out s) as (s' & -> & _). by eexists.
  - by apply rebootTimeout_total.
Qed.

Lemma step_nodes_ok e s s' : nodes_ok s -> step e s = Some s' -> nodes_ok s'.
Proof.
  intros H Hs. destruct e as [threats | newThreat | | | | t | | query | ftype | | ip out | | i |]; cbn [step] in Hs.
  - injection Hs as <-. unfold onSeed. by destruct (0 <? length threats)%nat.
  - by eapply onThreat_nodes_ok.
  - destruct (attackAlert s); [destruct (isAlertAcknowledged s) |]; by injection Hs as <-.
  - destruct (attackAlert s); by injection Hs as <-.
  - destruct (attackAlert s); by injection Hs as <-.
  - by injection Hs as <-.
  - by injection Hs as <-.
  - by injection Hs as <-.
  - by injection Hs as <-.
  - destruct (selectedThreat s); by injection Hs as <-.
  - destruct (handleBlockIP_resume_state ip out s)
      as (s1 & E & _ & _ & _ & _ & _ & Hn & Ho & Ht & _).
    rewrite E in Hs. injection Hs as <-.
    unfold nodes_ok. by rewrite Hn, Ho, Ht.
  - by injection Hs as <-.
  - injection Hs as <-. by apply clickReboot_nodes_ok.
  - by eapply rebootTimeout_nodes_ok.
Qed.

Lemma run_nodes_ok es s s' : nodes_ok s -> run es s = Some s' -> nodes_ok s'.
Proof.
  revert s. induction es as [| e es IH]; intros s H Hs; cbn [run] in Hs.
  - by injection Hs as <-.
  - destruct (step e s) as [s1 |] eqn:E; [| discriminate].
    cbn in Hs. eapply IH; [| exact Hs]. by eapply step_nodes_ok.
Qed.

Lemma run_total es s : nodes_ok s -> exists s', run es s = Some s'.
Proof.
  revert s. induction es as [| e es IH]; intros s H; cbn [run]; [by eexists |].
  destruct (step_total e s H) as (s1 & E). rewrite E. cbn.
  apply IH. by eapply step_nodes_ok.
Qed.

Lemma reachable_nodes_ok s : reachable s -> nodes_ok s.
Proof. intros [es Hs]. eapply run_nodes_ok; [apply nodes_ok_initial | exact Hs]. Qed.

(** ** The arrival of a threat *)

Lemma nodeAt_some s i o : nodes_ok s -> nodeAt s i = Some o -> (i < 3)%nat.
Proof.
  intros H Hi. open_nodes s H.
  destruct i as [| [| [| i]]]; [lia | lia | lia | discriminate Hi].
Qed.

Lemma onThreat_effect s newThreat n0 :
  nodes_ok s -> nodeAt s 0 = Some n0 ->
  exists s',
    onThreat newThreat s = Some s'
    /\ liveThreats s' = liveThreatsUpdater newThreat (liveThreats s)
    /\ isBackendConnected s' = true
    /\ attackAlert s' = Some newThreat
    /\ isAlertAcknowledged s' = false
    /\ nodeAt s' 0
       = Some (NodeStatus.set_requests (JS.add1 (NodeStatus.requests n0))
                 (NodeStatus.set_status under_attack n0))
    /\ (forall i, i <> 0%nat -> nodeAt s' i = nodeAt s i)
    /\ nodes s' = nodes s
    /\ timeouts s' = timeouts s
    /\ rebootingIndex s' = rebootingIndex s
    /\ selectedThreat s' = selectedThreat s
    /\ toast s' = toast s
    /\ posted s' = posted s.
Proof.
  intros H H0. open_nodes s H. injection H0 as ->.
  eexists. split; [reflexivity |]. repeat split.
  intros [| [| [| i]]] Hi; [contradiction | reflexivity ..].
Qed.

(** C2, as the code has it.  Every stream arrival, whether or not its id
    is already in the store, sets the current alert to the arriving threat
    and clears the acknowledged flag, so the alert becomes active and
    unacknowledged; what a duplicate id leaves unchanged is the store. *)
Theorem C2_every_arrival_raises_alert s newThreat :
  nodes_ok s ->
  exists s',
    step (StreamThreat newThreat) s = Some s'
    /\ attackAlert s' = Some newThreat
    /\ isAlertAcknowledged s' = false
    /\ alertState s' = ActiveUnacknowledged
    /\ (Threat.id newThreat ∈ ids (liveThreats s) -> liveThreats s' = liveThreats s)
    /\ (Threat.id newThreat ∉ ids (liveThreats s) ->
          liveThreats s' = newThreat :: take 49 (liveThreats s)).
Proof.
  intros H.
  assert (exists o0, nodeAt s 0 = Some o0) as [o0 H0].
  { pose proof H as H'. open_nodes s H'. by eexists. }
  destruct (onThreat_effect s newThreat o0 H H0)
    as (s' & E & Hlive & _ & Halert & Hack & _).
  exists s'. split; [exact E |]. split; [exact Halert |]. split; [exact Hack |].
  split; [unfold alertState; by rewrite Halert, Hack |].
  rewrite Hlive. split; intros Hid.
  - by apply updater_duplicate.
  - by apply updater_fresh.
Qed.

Lemma C2_every_arrival_raises_alert_witness :
  exists s',
    step (StreamThreat (sample "b")) seeded_abc = Some s'
    /\ attackAlert s' = Some (sample "b")
    /\ isAlertAcknowledged s' = false
    /\ alertState s' = ActiveUnacknowledged
    /\ (Threat.id (sample "b") ∈ ids (liveThreats seeded_abc) ->
          liveThreats s' = liveThreats seeded_abc)
    /\ (Threat.id (sample "b") ∉ ids (liveThreats seeded_abc) ->
          liveThreats s' = sample "b" :: take 49 (liveThreats seeded_abc)).
Proof.
  apply (C2_every_arrival_raises_alert seeded_abc (sample "b")).
  repeat split. constructor.
Defined.

(** C2, as stated, fails.  With the store holding the ids a, b, c and
    the alert idle, the arrival of a threat with id b leaves the store
    unchanged and yet makes the alert active and unacknowledged. *)
Lemma C2_duplicate_arrival_changes_alert :
  exists s',
    step (StreamThreat (sample "b")) seeded_abc = Some s'
    /\ ids (liveThreats seeded_abc) = ["a"; "b"; "c"]
    /\ Threat.id (sample "b") ∈ ids (liveThreats seeded_abc)
    /\ liveThreats s' = liveThreats seeded_abc
    /\ alertState seeded_abc = Idle
    /\ alertState s' = ActiveUnacknowledged
    /\ attackAlert s' <> attackAlert seeded_abc.
Proof.
  eexists. split; [reflexivity |]. split; [reflexivity |].
  split; [cbn; apply list_elem_of_In; right; left; reflexivity |]. split; [reflexivity |].
  split; [reflexivity |]. split; [reflexivity |]. discriminate.
Qed.

(** Events other than a stream arrival neither make an alert active and
    unacknowledged nor touch a request counter. *)
Lemma other_events_frame e s s1 :
  nodes_ok s -> step e s = Some s1 -> (forall t, e <> StreamThreat t) ->
  (alertState s1 = ActiveUnacknowledged ->
     alertState s = ActiveUnacknowledged /\ attackAlert s1 = attackAlert s)
  /\ (forall i, NodeStatus.requests <$> nodeAt s1 i = NodeStatus.requests <$> nodeAt s i).
Proof.
  intros H Hs Hne.
  destruct e as [threats | newThreat | | | | t | | query | ftype | | ip out | | i |];
    cbn [step] in Hs.
  - injection Hs as <-. unfold onSeed. by destruct (0 <? length threats)%nat.
  - by destruct (Hne newThreat).
  - unfold alertState.
    destruct (attackAlert s) eqn:Ea; [destruct (isAlertAcknowledged s) eqn:Ek |];
      injection Hs as <-; cbn; rewrite ?Ea, ?Ek; done.
  - unfold alertState. destruct (attackAlert s) eqn:Ea; injection Hs as <-; cbn;
      rewrite ?Ea; done.
  - unfold alertState. destruct (attackAlert s) eqn:Ea; injection Hs as <-; cbn;
      rewrite ?Ea; done.
  - by injection Hs as <-.
  - by injection Hs as <-.
  - by injection Hs as <-.
  - by injection Hs as <-.
  - destruct (selectedThreat s); by injection Hs as <-.
  - destruct (handleBlockIP_resume_state ip out s)
      as (s2 & E & _ & _ & Ha & Hk & _ & Hn & Ho & _).
    rewrite E in Hs. injection Hs as <-.
    unfold alertState, nodeAt. by rewrite Ha, Hk, Hn, Ho.
  - by injection Hs as <-.
  - injection Hs as <-. unfold clickReboot.
    destruct (i <? length (nodes s))%nat; [| done]. by destruct (isRebooting s i).
  - open_nodes s H.
    open_timeout tms Htms idx; injection Hs as <-;
      (split; [done |]); intros [| [| [| j]]]; reflexivity.
Qed.

(** C4. The attack side effect.  A stream arrival, the one event that
    makes the alert active and unacknowledged, sets the status of the node
    at index 0 to [under_attack] and adds exactly 1 to its request counter;
    the other fields of that node and all fields of the nodes at indices 1
    and 2 keep their values.  No other event makes the alert active and
    unacknowledged, and no other event changes a request counter. *)
Theorem C4_attack_side_effect s newThreat o0 :
  nodes_ok s -> nodeAt s 0 = Some o0 -> safe_counter (NodeStatus.requests o0) ->
  (exists s' o0',
     step (StreamThreat newThreat) s = Some s'
     /\ alertState s' = ActiveUnacknowledged
     /\ nodeAt s' 0 = Some o0'
     /\ NodeStatus.status o0' = under_attack
     /\ NodeStatus.requests o0' = NodeStatus.requests o0 + 1
     /\ NodeStatus.id o0' = NodeStatus.id o0
     /\ NodeStatus.name o0' = NodeStatus.name o0
     /\ NodeStatus.region o0' = NodeStatus.region o0
     /\ NodeStatus.uptime o0' = NodeStatus.uptime o0
     /\ o0' = attacked o0
     /\ nodeAt s' 1 = nodeAt s 1
     /\ nodeAt s' 2 = nodeAt s 2
     /\ (forall i, i <> 0%nat -> nodeAt s' i = nodeAt s i))
  /\ (forall e s1,
        step e s = Some s1 -> (forall t, e <> StreamThreat t) ->
        (alertState s1 = ActiveUnacknowledged ->
           alertState s = ActiveUnacknowledged /\ attackAlert s1 = attackAlert s)
        /\ (forall i,
              NodeStatus.requests <$> nodeAt s1 i = NodeStatus.requests <$> nodeAt s i)).
Proof.
  intros H H0 Hsafe. split.
  - destruct (onThreat_effect s newThreat o0 H H0)
      as (s' & E & _ & _ & Halert & Hack & Hn0 & Hframe & _).
    exists s', (attacked o0). split; [exact E |].
    split; [unfold alertState; by rewrite Halert, Hack |].
    split.
    { rewrite Hn0. unfold attacked. cbn. by rewrite add1_exact. }
    repeat split; try reflexivity; try (apply Hframe; lia).
  - intros e s1 Hs Hne. exact (other_events_frame e s s1 H Hs Hne).
Qed.

(** Over a whole run, the request counter of node 0 grows by the number
    of stream arrivals: the side effect happens once per arrival. *)
Lemma requests_count_arrivals es s s' o :
  nodes_ok s -> nodeAt s 0 = Some o ->
  0 <= NodeStatus.requests o ->
  NodeStatus.requests o + Z.of_nat (count_arrivals es) <= 2 ^ 53 ->
  run es s = Some s' ->
  exists o', nodeAt s' 0 = Some o'
    /\ NodeStatus.requests o' = NodeStatus.requests o + Z.of_nat (count_arrivals es).
Proof.
  revert s o. induction es as [| e es IH]; intros s o H Hn H0 Hb Hrun.
  - injection Hrun as <-. exists o. split; [exact Hn | cbn; lia].
  - cbn [run] in Hrun. destruct (step e s) as [s1 |] eqn:E; [| discriminate Hrun].
    cbn in Hrun. pose proof (step_nodes_ok e s s1 H E) as H1.
    destruct (match e with StreamThreat _ => true | _ => false end) eqn:Ek.
    + destruct e as [| t | | | | | | | | | | | |]; try discriminate Ek.
      assert (Hc : count_arrivals (StreamThreat t :: es) = S (count_arrivals es))
        by reflexivity.
      rewrite Hc in Hb |- *.
      destruct (onThreat_effect s t o H Hn) as (s2 & E2 & _ & _ & _ & _ & Hn2 & _).
      cbn [step] in E. rewrite E2 in E. injection E as ->.
      destruct (IH s1 _ H1 Hn2) as (o' & Hn' & Hr'); [| | exact Hrun |].
      * cbn. rewrite add1_exact by (unfold safe_counter; lia). lia.
      * cbn. rewrite add1_exact by (unfold safe_counter; lia). lia.
      * exists o'. split; [exact Hn' |]. rewrite Hr'. cbn.
        rewrite add1_exact by (unfold safe_counter; lia). lia.
    + assert (Hc : count_arrivals (e :: es) = count_arrivals es).
      { unfold count_arrivals. cbn [List.filter]. by rewrite Ek. }
      rewrite Hc in Hb |- *.
      assert (Hne : forall t, e <> StreamThreat t).
      { intros t ->. discriminate Ek. }
      destruct (other_events_frame e s s1 H E Hne) as [_ Hreq].
      specialize (Hreq 0%nat). rewrite Hn in Hreq. cbn in Hreq.
      destruct (nodeAt s1 0) as [o1 |] eqn:Hn1; [| discriminate Hreq].
      injection Hreq as Hreq.
      destruct (IH s1 o1 H1 Hn1) as (o' & Hn' & Hr'); [lia | lia | exact Hrun |].
      exists o'. split; [exact Hn' | lia].
Qed.

Lemma requests_count_arrivals_witness :
  exists s' o',
    run [StreamThreat (sample "d"); Acknowledge; StreamThreat (sample "d")] initial = Some s'
    /\ nodeAt s' 0 = Some o'
    /\ NodeStatus.requests o' = 4523.
Proof.
  destruct (run_total [StreamThreat (sample "d"); Acknowledge; StreamThreat (sample "d")]
              initial nodes_ok_initial) as [s' E].
  destruct (requests_count_arrivals
              [StreamThreat (sample "d"); Acknowledge; StreamThreat (sample "d")]
              initial s'
              (NodeStatus.mk "n1" "Web-Honeypot-01" "US-East" active "14d 2h" 4521)
              nodes_ok_initial eq_refl ltac:(cbn; lia) ltac:(cbn; lia) E)
    as (o' & Hn & Hr).
  exists s', o'. split; [exact E |]. split; [exact Hn | exact Hr].
Defined.

Lemma C4_attack_side_effect_witness :
  exists s' o0',
    step (StreamThreat (sample "d")) seeded_abc = Some s'
    /\ nodeAt s' 0 = Some o0'
    /\ NodeStatus.status o0' = under_attack
    /\ NodeStatus.requests o0' = 4522
    /\ nodeAt s' 1 = nodeAt seeded_abc 1
    /\ nodeAt s' 2 = nodeAt seeded_abc 2.
Proof.
  destruct (C4_attack_side_effect seeded_abc (sample "d")
              (NodeStatus.mk "n1" "Web-Honeypot-01" "US-East" active "14d 2h" 4521))
    as [(s' & o0' & E & _ & Hn & Hst & Hrq & _ & _ & _ & _ & _ & H1 & H2 & _) _].
  - repeat split. constructor.
  - reflexivity.
  - unfold safe_counter. cbn. lia.
  - exists s', o0'. repeat split; assumption.
Defined.

(** ** Manual reboot *)

Lemma isRebooting_true s i : isRebooting s i = true <-> rebootingIndex s = Some i.
Proof.
  unfold isRebooting. destruct (rebootingIndex s) as [j |]; [| split; discriminate].
  rewrite Nat.eqb_eq. split; congruence.
Qed.

Lemma clickReboot_disabled s i : rebootingIndex s = Some i -> clickReboot i s = s.
Proof.
  intros H. apply isRebooting_true in H. unfold clickReboot. rewrite H.
  by destruct (i <? length (nodes s))%nat.
Qed.

Lemma clickReboot_enabled s i :
  nodes_ok s -> (i < 3)%nat -> rebootingIndex s <> Some i ->
  clickReboot i s = handleNodeAction i s.
Proof.
  intros (Hnd & _) Hi Hne. unfold clickReboot. rewrite Hnd. cbn [length].
  apply Nat.ltb_lt in Hi. rewrite Hi.
  destruct (isRebooting s i) eqn:E; [| reflexivity].
  apply isRebooting_true in E. contradiction.
Qed.

Lemma rebootTimeout_effect s i cap rest :
  nodes_ok s -> timeouts s = (i, cap) :: rest ->
  exists s' o,
    rebootTimeout s = Some s'
    /\ nodeAt s i = Some o
    /\ rebootingIndex s' = None
    /\ timeouts s' = rest
    /\ nodeAt s' i = Some (rebooted o)
    /\ (forall j, j <> i -> nodeAt s' j = nodeAt s j)
    /\ liveThreats s' = liveThreats s
    /\ attackAlert s' = attackAlert s
    /\ isAlertAcknowledged s' = isAlertAcknowledged s.
Proof.
  intros H Ht. open_nodes s H. cbn in Ht. subst tms.
  apply Forall_cons in Htms as [[Hi Hcap] _]. cbn in Hi, Hcap. subst cap.
  destruct i as [| [| [| i]]]; [| | | exfalso; lia];
    eexists _, _; (split; [reflexivity |]); (split; [reflexivity |]);
    repeat split;
    intros [| [| [| j]]] Hj; (reflexivity || contradiction).
Qed.

(** C5, as the code has it.  The dashboard keeps a single rebooting index.
    While it is the index of a node, the reboot control of that node is
    disabled, so a reboot request on that node changes nothing, and the
    controls of the other nodes stay enabled: a request on another node is
    accepted, moves the rebooting index to that node and schedules its
    timeout.  When the timeout of an accepted request on a node fires, the
    rebooting index is cleared, the status of the node becomes [offline]
    if it was [active] and [active] otherwise, its uptime becomes the zero
    display value, and the other nodes are unchanged. *)
Theorem C5_reboot_by_single_index s i :
  nodes_ok s -> (i < 3)%nat ->
  (rebootingIndex s = Some i ->
     clickReboot i s = s
     /\ (forall j, (j < 3)%nat -> j <> i ->
           clickReboot j s = handleNodeAction j s
           /\ rebootingIndex (clickReboot j s) = Some j
           /\ timeouts (clickReboot j s) = (timeouts s ++ [(j, nodes s)])%list
           /\ objects (clickReboot j s) = objects s))
  /\ (forall cap rest,
        timeouts s = (i, cap) :: rest ->
        exists s' o,
          rebootTimeout s = Some s'
          /\ nodeAt s i = Some o
          /\ rebootingIndex s' = None
          /\ timeouts s' = rest
          /\ nodeAt s' i = Some (rebooted o)
          /\ NodeStatus.status (rebooted o)
             = (match NodeStatus.status o with active => offline | _ => active end)
          /\ NodeStatus.uptime (rebooted o) = "0d 0h"
          /\ (forall j, j <> i -> nodeAt s' j = nodeAt s j)).
Proof.
  intros H Hi. split.
  - intros Hflag. split; [by apply clickReboot_disabled |].
    intros j Hj Hji. rewrite clickReboot_enabled by (done || congruence).
    repeat split.
  - intros cap rest Ht.
    destruct (rebootTimeout_effect s i cap rest H Ht)
      as (s' & o & E & Hn & Hflag & Hrest & Hn' & Hframe & _).
    exists s', o. repeat split; assumption.
Qed.

Lemma C5_reboot_by_single_index_witness :
  clickReboot 0 (clickReboot 0 initial) = clickReboot 0 initial
  /\ rebootingIndex (clickReboot 1 (clickReboot 0 initial)) = Some 1%nat
  /\ (exists s', rebootTimeout (clickReboot 0 initial) = Some s'
        /\ rebootingIndex s' = None
        /\ (NodeStatus.status <$> nodeAt s' 0) = Some offline
        /\ (NodeStatus.uptime <$> nodeAt s' 0) = Some "0d 0h").
Proof.
  assert (Hok : nodes_ok (clickReboot 0 initial))
    by (apply clickReboot_nodes_ok, nodes_ok_initial).
  destruct (C5_reboot_by_single_index (clickReboot 0 initial) 0 Hok ltac:(lia))
    as [Hflag Hfire].
  destruct (Hflag eq_refl) as [Hsame Hother].
  split; [exact Hsame |]. split.
  - apply (Hother 1%nat); lia.
  - destruct (Hfire [0; 1; 2]%nat [] eq_refl)
      as (s' & o & E & Hn & Hnone & _ & Hn' & _).
    exists s'. split; [exact E |]. split; [exact Hnone |].
    rewrite Hn'. injection Hn as <-. split; reflexivity.
Defined.

(** C5, as stated, fails.  After reboot requests on node 0 and then on
    node 1, the timeout of node 0 is still pending, yet a further request
    on node 0 is accepted and has an effect: with it node 0 ends [active]
    once all timeouts have fired, without it node 0 ends [offline].  And
    the reboot of node 1, whose status is [under_attack], ends in [active],
    which is not a flip between [active] and [offline]. *)
Lemma C5_reboot_repeated_while_pending :
  exists s s_with s_without,
    run [RebootClick 0; RebootClick 1] initial = Some s
    /\ reboot_pending s 0
    /\ clickReboot 0 s <> s
    /\ run [RebootClick 0; RebootTimeout; RebootTimeout; RebootTimeout] s = Some s_with
    /\ run [RebootTimeout; RebootTimeout] s = Some s_without
    /\ timeouts s_with = [] /\ timeouts s_without = []
    /\ (NodeStatus.status <$> nodeAt s_with 0) = Some active
    /\ (NodeStatus.status <$> nodeAt s_without 0) = Some offline
    /\ (NodeStatus.status <$> nodeAt s 1) = Some under_attack
    /\ (NodeStatus.status <$> nodeAt s_without 1) = Some active.
Proof.
  eexists _, _, _. split; [vm_compute; reflexivity |].
  split; [left; reflexivity |].
  split.
  { intros E. apply (f_equal rebootingIndex) in E. vm_compute in E. discriminate E. }
  split; [vm_compute; reflexivity |]. split; [vm_compute; reflexivity |].
  repeat split.
Qed.

(** ** Reboot of a node under attack *)

Lemma run_app es1 es2 s : run (es1 ++ es2) s = s' ← run es1 s; run es2 s'.
Proof.
  revert s. induction es1 as [| e es1 IH]; intros s; cbn [run app]; [reflexivity |].
  destruct (step e s) as [s1 |]; cbn; [apply IH | reflexivity].
Qed.

Lemma step_keeps_timers e s s' :
  (forall t, e <> StreamThreat t) -> e <> RebootTimeout -> step e s = Some s' ->
  nodes s' = nodes s /\ objects s' = objects s
  /\ (timeouts s' = timeouts s
      \/ exists j, timeouts s' = (timeouts s ++ [(j, nodes s)])%list).
Proof.
  intros Hne Hnr Hs.
  destruct e as [threats | newThreat | | | | t | | query | ftype | | ip out | | i |];
    cbn [step] in Hs.
  - injection Hs as <-. unfold onSeed.
    destruct (0 <? length threats)%nat; repeat split; by left.
  - by destruct (Hne newThreat).
  - destruct (attackAlert s); [destruct (isAlertAcknowledged s) |];
      injection Hs as <-; repeat split; by left.
  - destruct (attackAlert s); injection Hs as <-; repeat split; by left.
  - destruct (attackAlert s); injection Hs as <-; repeat split; by left.
  - injection Hs as <-. repeat split; by left.
  - injection Hs as <-. repeat split; by left.
  - injection Hs as <-. repeat split; by left.
  - injection Hs as <-. repeat split; by left.
  - destruct (selectedThreat s); injection Hs as <-; repeat split; by left.
  - destruct (handleBlockIP_resume_state ip out s)
      as (s2 & E & _ & _ & _ & _ & _ & Hn & Ho & Ht & _).
    rewrite E in Hs. injection Hs as <-. split; [exact Hn |]. split; [exact Ho |]. by left.
  - injection Hs as <-. repeat split; by left.
  - injection Hs as <-. unfold clickReboot.
    destruct (i <? length (nodes s))%nat; [| repeat split; by left].
    destruct (isRebooting s i); [repeat split; by left |].
    split; [reflexivity |]. split; [reflexivity |]. right. by exists i.
  - contradiction.
Qed.

(** While the reboot waits, an event other than a timeout leaves it
    waiting behind the same timeouts, with the node under attack. *)
Lemma step_waiting e s i k :
  reboot_waiting s i k -> e <> RebootTimeout ->
  exists s', step e s = Some s' /\ reboot_waiting s' i k.
Proof.
  intros (Hok & (pre & cap & post & Htw & Hk & Hpre) & (o & Hn & Hst)) Hne.
  destruct (step_total e s Hok) as [s' E]. exists s'. split; [exact E |].
  assert (Hok' : nodes_ok s') by (by eapply step_nodes_ok).
  split; [exact Hok' |].
  assert (Harr : (exists t, e = StreamThreat t) \/ (forall t, e <> StreamThreat t)).
  { destruct e; try (right; intros t' Ht'; discriminate Ht'). left. by eexists. }
  destruct Harr as [[t ->] | Harr].
  - assert (exists n0, nodeAt s 0 = Some n0) as [n0 H0].
    { pose proof Hok as H'. open_nodes s H'. by eexists. }
    destruct (onThreat_effect s t n0 Hok H0)
      as (s1 & E1 & _ & _ & _ & _ & Hn0 & Hframe & _ & Htm & _).
    cbn [step] in E. rewrite E1 in E. injection E as ->.
    split.
    + exists pre, cap, post. by rewrite Htm.
    + destruct (decide (i = 0%nat)) as [-> | Hi].
      * eexists. split; [exact Hn0 | reflexivity].
      * exists o. split; [by rewrite Hframe | exact Hst].
  - destruct (step_keeps_timers e s s' Harr Hne E) as (Hnd & Hob & Htm).
    split.
    + destruct Htm as [Htm | [j Htm]].
      * exists pre, cap, post. by rewrite Htm.
      * exists pre, cap, (post ++ [(j, nodes s)])%list.
        split; [| by split]. rewrite Htm, Htw. by rewrite <- app_assoc.
    + exists o. split; [| exact Hst]. unfold nodeAt in *. by rewrite Hnd, Hob.
Qed.

(** While the reboot waits behind other timeouts, the oldest of them fires
    on another node and leaves the node under attack. *)
Lemma timeout_waiting s i k :
  reboot_waiting s i (S k) ->
  exists s', step RebootTimeout s = Some s' /\ reboot_waiting s' i k.
Proof.
  intros (Hok & (pre & cap & post & Ht & Hlen & Hpre) & (o & Hn & Hst)).
  destruct pre as [| [j capj] pre]; [discriminate Hlen |].
  cbn in Ht, Hlen, Hpre.
  destruct (rebootTimeout_effect s j capj _ Hok Ht)
    as (s' & oj & E & _ & _ & Htm & _ & Hframe & _).
  exists s'. split; [exact E |].
  split; [by eapply rebootTimeout_nodes_ok |].
  split.
  - exists pre, cap, post. split; [exact Htm |]. split; [lia |].
    intros Hin. apply Hpre. by right.
  - exists o. split; [| exact Hst]. rewrite Hframe; [exact Hn |].
    intros ->. apply Hpre. by left.
Qed.

Lemma run_waiting es s i :
  reboot_waiting s i (count_timeouts es) ->
  exists s', run es s = Some s' /\ reboot_waiting s' i 0.
Proof.
  revert s. induction es as [| e es IH]; intros s Hw.
  - exists s. by split.
  - assert (Hcase : e = RebootTimeout \/ e <> RebootTimeout)
      by (destruct e; (by left) || (right; discriminate)).
    destruct Hcase as [-> | Hne].
    + change (count_timeouts (RebootTimeout :: es)) with (S (count_timeouts es)) in Hw.
      destruct (timeout_waiting s i _ Hw) as (s1 & E & Hw1).
      destruct (IH s1 Hw1) as (s' & Er & Hw').
      exists s'. cbn [run]. rewrite E. by split.
    + assert (Hc : count_timeouts (e :: es) = count_timeouts es)
        by (destruct e; (reflexivity || contradiction)).
      rewrite Hc in Hw.
      destruct (step_waiting e s i _ Hw Hne) as (s1 & E & Hw1).
      destruct (IH s1 Hw1) as (s' & Er & Hw').
      exists s'. cbn [run]. rewrite E. by split.
Qed.

(** C10, amended.  When a reboot timeout fires, the status of its node
    becomes [offline] if it is [active] at that moment and [active]
    otherwise; a node that is [under_attack] when the timeout fires becomes
    [active], and no node is [under_attack] right after its reboot.  A
    reboot that is accepted on a node that is [under_attack], while no
    earlier reboot of that node is pending, ends with the node [active],
    whatever happens during the delay: threats arriving, reboots of other
    nodes completing, further reboots requested, any other event. *)
Theorem C10_reboot_clears_under_attack s i o :
  nodes_ok s -> nodeAt s i = Some o ->
  (forall cap rest,
     timeouts s = (i, cap) :: rest ->
     exists s' o',
       rebootTimeout s = Some s'
       /\ nodeAt s' i = Some o'
       /\ NodeStatus.status o'
          = (match NodeStatus.status o with active => offline | _ => active end)
       /\ NodeStatus.status o' <> under_attack
       /\ (NodeStatus.status o = under_attack -> NodeStatus.status o' = active))
  /\ (NodeStatus.status o = under_attack ->
      rebootingIndex s <> Some i -> ~ reboot_pending s i ->
      forall es, count_timeouts es = length (timeouts s) ->
      exists s' o',
        run (RebootClick i :: es ++ [RebootTimeout]) s = Some s'
        /\ nodeAt s' i = Some o'
        /\ NodeStatus.status o' = active).
Proof.
  intros H Hn. split.
  - intros cap rest Ht.
    destruct (rebootTimeout_effect s i cap rest H Ht)
      as (s' & o1 & E & Hn1 & _ & _ & Hn' & _).
    rewrite Hn in Hn1. injection Hn1 as <-.
    exists s', (rebooted o). split; [exact E |]. split; [exact Hn' |].
    unfold rebooted. cbn. split; [reflexivity |].
    destruct (NodeStatus.status o); split; (discriminate || reflexivity || done).
  - intros Hst Hflag Hpend es Hcount.
    pose proof (nodeAt_some s i o H Hn) as Hi.
    set (s1 := clickReboot i s).
    assert (Hok1 : nodes_ok s1) by (by apply clickReboot_nodes_ok).
    assert (Hs1 : s1 = handleNodeAction i s) by (by apply clickReboot_enabled).
    assert (Hw1 : reboot_waiting s1 i (count_timeouts es)).
    { split; [exact Hok1 |]. split.
      - exists (timeouts s), (nodes s), []. rewrite Hs1. split; [reflexivity |].
        split; [by rewrite Hcount | exact Hpend].
      - exists o. split; [by rewrite Hs1 | exact Hst]. }
    destruct (run_waiting es s1 i Hw1)
      as (s2 & Er & Hok2 & (pre & cap & post & Ht2 & Hlen & _) & (o2 & Hn2 & Hst2)).
    destruct pre; [| discriminate Hlen]. cbn in Ht2.
    destruct (rebootTimeout_effect s2 i cap post Hok2 Ht2)
      as (s3 & o3 & E3 & Hn3 & _ & _ & Hn3' & _).
    rewrite Hn2 in Hn3. injection Hn3 as <-.
    exists s3, (rebooted o2).
    split.
    + cbn [run step]. fold s1. cbn. rewrite run_app, Er. cbn. by rewrite E3.
    + split; [exact Hn3' |]. unfold rebooted. cbn. by rewrite Hst2.
Qed.

Lemma C10_reboot_clears_under_attack_witness :
  exists s' o',
    run (RebootClick 1
           :: [StreamThreat (sample "d"); RebootTimeout; RebootClick 2] ++ [RebootTimeout])
        (clickReboot 0 initial) = Some s'
    /\ nodeAt s' 1 = Some o'
    /\ NodeStatus.status o' = active.
Proof.
  apply (proj2 (C10_reboot_clears_under_attack (clickReboot 0 initial) 1
                  (NodeStatus.mk "n2" "DB-Trap-Alpha" "EU-West" under_attack "2d 5h" 12890)
                  (clickReboot_nodes_ok 0 initial nodes_ok_initial) eq_refl)).
  - reflexivity.
  - discriminate.
  - intros [Hin | []]. discriminate Hin.
  - reflexivity.
Defined.

(** With an earlier reboot of the same node still pending, a reboot that is
    accepted on a node under attack ends with the node [offline]: a threat
    arrives, node 0 is rebooted, node 1 is rebooted, and the button of node
    0, enabled again, is pressed while node 0 is [under_attack]. *)
Lemma C10_reboot_of_under_attack_ends_offline :
  exists s s',
    run [StreamThreat (sample "d"); RebootClick 0; RebootClick 1] initial = Some s
    /\ (NodeStatus.status <$> nodeAt s 0) = Some under_attack
    /\ isRebooting s 0 = false
    /\ clickReboot 0 s = handleNodeAction 0 s
    /\ run [RebootClick 0; RebootTimeout; RebootTimeout; RebootTimeout] s = Some s'
    /\ timeouts s' = []
    /\ (NodeStatus.status <$> nodeAt s' 0) = Some offline.
Proof.
  eexists _, _. split; [vm_compute; reflexivity |].
  split; [reflexivity |]. split; [reflexivity |]. split; [reflexivity |].
  split; [vm_compute; reflexivity |]. split; reflexivity.
Qed.

End Nodes.

(* ===================================================================== *)
(** * Blocking an IP *)
(* ===================================================================== *)

Section BlockIP.

Import App.

Implicit Types (s : Dashboard) (ip : string) (out : Api.FetchOutcome).

Lemma blockIP_cases ip out :
  (exists b, out = Api.Resolved (Api.mkResponse true (Some b))
             /\ Api.blockIP ip out = inr b)
  \/ ((out = Api.Rejected
       \/ (exists r, out = Api.Resolved r /\ (Api.ok r = false \/ Api.body r = None)))
      /\ Api.blockIP ip out = inr generic_failure).
Proof.
  destruct out as [| [[] [b |]]]; cbn.
  - right. split; [by left | reflexivity].
  - left. by exists b.
  - right. split; [right; eexists; split; [reflexivity | by right] | reflexivity].
  - right. split; [right; eexists; split; [reflexivity | by left] | reflexivity].
  - right. split; [right; eexists; split; [reflexivity | by left] | reflexivity].
Qed.

(** C8. Block-IP outcome handling.  [blockIP] always returns a result and
    never throws: when the request is rejected, answered with a status
    that is not ok, or answered with a body that is not JSON, the result is
    the failure with the generic message; when it is answered with an ok
    status and a JSON body, the result is that body, with the success flag
    and the message of the server.  [handleBlockIP] sends one request.
    On a failure result it shows one error toast with the message of the
    result, which is the generic message or the one the server supplied,
    leaves the detail view as it is and sends no further request; on a
    success result, which is the reply of the server, it shows a success
    toast with the server's message and closes the detail view. *)
Theorem C8_block_ip_outcome ip out s :
  exists result s',
    Api.blockIP ip out = inr result
    /\ (forall b, out = Api.Resolved (Api.mkResponse true (Some b)) -> result = b)
    /\ ((out = Api.Rejected
         \/ (exists r, out = Api.Resolved r /\ (Api.ok r = false \/ Api.body r = None))) ->
          result = generic_failure)
    /\ posted (handleBlockIP_send ip s) = (posted s ++ [ip])%list
    /\ handleBlockIP_resume ip out s = inr s'
    /\ posted s' = posted s
    /\ toast s' = Some (mkToast (Api.message result)
                          (if Api.success result then toast_success else toast_error))
    /\ selectedThreat s' = (if Api.success result then None else selectedThreat s)
    /\ (Api.success result = false ->
          toast s' = Some (mkToast (Api.message result) toast_error)
          /\ selectedThreat s' = selectedThreat s
          /\ (result = generic_failure
              \/ out = Api.Resolved (Api.mkResponse true (Some result))))
    /\ (Api.success result = true ->
          toast s' = Some (mkToast (Api.message result) toast_success)
          /\ selectedThreat s' = None
          /\ out = Api.Resolved (Api.mkResponse true (Some result)))
    /\ liveThreats s' = liveThreats s
    /\ attackAlert s' = attackAlert s
    /\ isAlertAcknowledged s' = isAlertAcknowledged s
    /\ objects s' = objects s.
Proof.
  destruct (handleBlockIP_resume_state ip out s)
    as (s' & E & Hl & _ & Ha & Hk & _ & _ & Ho & _ & Hp).
  destruct (blockIP_cases ip out) as [(b & -> & Hb) | [Hfail Hb]].
  - exists b, s'. split; [exact Hb |].
    split; [by intros b' [= ->] |].
    split.
    { intros [Hx | (r & Hx & Hok)]; [discriminate Hx |].
      injection Hx as <-. by destruct Hok. }
    split; [reflexivity |]. split; [exact E |]. split; [exact Hp |].
    unfold handleBlockIP_resume in E. rewrite Hb in E. cbn in E.
    destruct b as [[] msg]; cbn in E; injection E as <-; cbn.
    + split; [reflexivity |]. split; [reflexivity |].
      split; [intros Hs; discriminate Hs |]. split; [done |]. done.
    + split; [reflexivity |]. split; [reflexivity |].
      split; [intros _; repeat split; by right |].
      split; [intros Hs; discriminate Hs |]. done.
  - exists generic_failure, s'. split; [exact Hb |].
    split.
    { intros b ->. destruct Hfail as [Hx | (r & Hx & [Hok | Hbody])];
        [discriminate Hx | injection Hx as <-; discriminate Hok
        | injection Hx as <-; discriminate Hbody]. }
    split; [done |].
    split; [reflexivity |]. split; [exact E |]. split; [exact Hp |].
    unfold handleBlockIP_resume in E. rewrite Hb in E. cbn in E. injection E as <-.
    split; [reflexivity |]. split; [reflexivity |].
    split; [intros _; repeat split; by left |].
    split; [intros Hs; discriminate Hs |]. done.
Qed.

Lemma C8_block_ip_outcome_witness :
  (exists s',
     handleBlockIP "203.0.113.45" Api.Rejected (setSelectedThreat (Some (sample "a")) initial)
       = inr s'
     /\ toast s' = Some (mkToast "Failed to block IP address" toast_error)
     /\ selectedThreat s' = Some (sample "a")
     /\ posted s' = ["203.0.113.45"])
  /\ (exists s',
        handleBlockIP "203.0.113.45" (Api.Resolved (Api.mkResponse true (Some server_blocked)))
          (setSelectedThreat (Some (sample "a")) initial) = inr s'
        /\ toast s' = Some (mkToast "IP 203.0.113.45 blocked" toast_success)
        /\ selectedThreat s' = None
        /\ posted s' = ["203.0.113.45"])
  /\ (exists s',
        handleBlockIP "203.0.113.45" (Api.Resolved (Api.mkResponse true (Some server_refused)))
          (setSelectedThreat (Some (sample "a")) initial) = inr s'
        /\ toast s' = Some (mkToast "Invalid IP address" toast_error)
        /\ selectedThreat s' = Some (sample "a")
        /\ posted s' = ["203.0.113.45"]).
Proof.
  split; [| split].
  - destruct (C8_block_ip_outcome "203.0.113.45" Api.Rejected
                (handleBlockIP_send "203.0.113.45"
                   (setSelectedThreat (Some (sample "a")) initial)))
      as (result & s' & _ & _ & Hgen & _ & E & Hp & Ht & Hsel & _).
    exists s'. split; [exact E |].
    assert (Hr : result = generic_failure) by (apply Hgen; by left).
    subst result. split; [exact Ht |]. split; [exact Hsel |]. exact Hp.
  - destruct (C8_block_ip_outcome "203.0.113.45"
                (Api.Resolved (Api.mkResponse true (Some server_blocked)))
                (handleBlockIP_send "203.0.113.45"
                   (setSelectedThreat (Some (sample "a")) initial)))
      as (result & s' & _ & Hbody & _ & _ & E & Hp & Ht & Hsel & _).
    exists s'. split; [exact E |].
    rewrite (Hbody _ eq_refl) in Ht, Hsel.
    split; [exact Ht |]. split; [exact Hsel |]. exact Hp.
  - destruct (C8_block_ip_outcome "203.0.113.45"
                (Api.Resolved (Api.mkResponse true (Some server_refused)))
                (handleBlockIP_send "203.0.113.45"
                   (setSelectedThreat (Some (sample "a")) initial)))
      as (result & s' & _ & Hbody & _ & _ & E & Hp & Ht & Hsel & _).
    exists s'. split; [exact E |].
    rewrite (Hbody _ eq_refl) in Ht, Hsel.
    split; [exact Ht |]. split; [exact Hsel |]. exact Hp.
Defined.

End BlockIP.

(* ===================================================================== *)
(** * Strings: substring search and case mapping *)
(* ===================================================================== *)

Section Strings.

Implicit Types (s q u v : string) (a b c : ascii).

Lemma append_cons c u v : String c u ++ v = String c (u ++ v).
Proof. reflexivity. Qed.

Lemma prefix_spec q s : String.prefix q s = true <-> exists post, s = q ++ post.
Proof.
  revert s. induction q as [| a q IH]; intros s; cbn.
  - split; [intros _; exists s; reflexivity | by destruct s].
  - destruct s as [| b s]; [split; [discriminate | intros [post H]; discriminate H] |].
    cbn [String.prefix]. destruct (ascii_dec a b) as [-> | Hne].
    + rewrite IH. split; intros [post H]; exists post; [by rewrite H | by injection H].
    + split; [discriminate | intros [post H]; injection H as ? _; congruence].
Qed.

Lemma includes_spec s q : JS.includes s q = true <-> exists pre post, s = pre ++ q ++ post.
Proof.
  induction s as [| c s IH]; cbn [JS.includes]; rewrite orb_true_iff, prefix_spec.
  - split.
    + intros [[post H] | H]; [exists "", post; exact H | discriminate H].
    + intros (pre & post & H). left. destruct pre as [| c pre]; [| discriminate H].
      exists post. exact H.
  - rewrite IH. split.
    + intros [[post H] | (pre & post & H)]; [exists "", post; exact H |].
      exists (String c pre), post. by rewrite append_cons, H.
    + intros (pre & post & H). destruct pre as [| c' pre].
      * left. exists post. exact H.
      * right. exists pre, post. by injection H.
Qed.

Lemma toLowerCase_app u v : JS.toLowerCase (u ++ v) = JS.toLowerCase u ++ JS.toLowerCase v.
Proof.
  induction u as [| c u IH]; [reflexivity |].
  rewrite append_cons. cbn [JS.toLowerCase]. by rewrite append_cons, IH.
Qed.

Lemma toLowerCase_split s x y :
  JS.toLowerCase s = x ++ y ->
  exists u v, s = u ++ v /\ JS.toLowerCase u = x /\ JS.toLowerCase v = y.
Proof.
  revert s. induction x as [| c x IH]; intros s H.
  - exists "", s. by repeat split.
  - destruct s as [| d s]; [discriminate H |]. cbn in H. injection H as Hc Hs.
    destruct (IH s Hs) as (u & v & -> & Hu & Hv).
    exists (String d u), v. rewrite append_cons. cbn [JS.toLowerCase]. by rewrite Hc, Hu.
Qed.

Lemma nat_of_ascii_inj a b : nat_of_ascii a = nat_of_ascii b -> a = b.
Proof.
  intros H. rewrite <- (ascii_nat_embedding a), <- (ascii_nat_embedding b). by rewrite H.
Qed.

Lemma nat_of_lower_ascii a :
  nat_of_ascii (JS.lower_ascii a)
  = if is_upper a then (nat_of_ascii a + 32)%nat else nat_of_ascii a.
Proof.
  unfold JS.lower_ascii, is_upper.
  destruct ((65 <=? nat_of_ascii a)%nat && (nat_of_ascii a <=? 90)%nat)%bool eqn:E;
    [| reflexivity].
  apply andb_true_iff in E as [_ E]. apply Nat.leb_le in E.
  apply nat_ascii_embedding. lia.
Qed.

Lemma lower_of_not_upper a b : lower_of a b -> is_upper b = false.
Proof.
  intros [Ha Hb]. unfold is_upper in *. rewrite Hb.
  apply andb_true_iff in Ha as [Ha _]. apply Nat.leb_le in Ha.
  apply andb_false_iff. right. apply Nat.leb_gt. lia.
Qed.

Lemma lower_ascii_eq a b : JS.lower_ascii a = JS.lower_ascii b <-> same_letter a b.
Proof.
  split.
  - intros H. apply (f_equal nat_of_ascii) in H. rewrite !nat_of_lower_ascii in H.
    unfold same_letter, lower_of.
    destruct (is_upper a) eqn:Ea, (is_upper b) eqn:Eb.
    + left. apply nat_of_ascii_inj. lia.
    + right. left. split; [reflexivity | lia].
    + right. right. split; [reflexivity | lia].
    + left. by apply nat_of_ascii_inj.
  - assert (Hone : forall x y, lower_of x y -> JS.lower_ascii x = JS.lower_ascii y).
    { intros x y Hxy. apply nat_of_ascii_inj. rewrite !nat_of_lower_ascii.
      rewrite (lower_of_not_upper x y Hxy). destruct Hxy as [-> ->]. reflexivity. }
    intros [-> | [H | H]]; [reflexivity | by apply Hone | symmetry; by apply Hone].
Qed.

Lemma toLowerCase_eq u v : JS.toLowerCase u = JS.toLowerCase v <-> ci_equal u v.
Proof.
  unfold ci_equal. revert v. induction u as [| a u IH]; intros [| b v]; cbn.
  - split; [constructor | reflexivity].
  - split; [discriminate | intros H; inversion H].
  - split; [discriminate | intros H; inversion H].
  - split.
    + intros H. injection H as Hc Hs. constructor; [by apply lower_ascii_eq | by apply IH].
    + intros H. inversion H as [| ? ? ? ? Hc Hs]; subst.
      apply lower_ascii_eq in Hc. apply IH in Hs. by rewrite Hc, Hs.
Qed.

Lemma includes_lower_spec s q :
  JS.includes (JS.toLowerCase s) (JS.toLowerCase q) = true <-> ci_substring q s.
Proof.
  rewrite includes_spec. unfold ci_substring. split.
  - intros (pre & post & H).
    apply toLowerCase_split in H as (u & w & -> & Hu & Hw).
    apply toLowerCase_split in Hw as (m & v & -> & Hm & Hv).
    exists u, m, v. split; [reflexivity | by apply toLowerCase_eq].
  - intros (pre & mid & post & -> & Hci). apply toLowerCase_eq in Hci.
    exists (JS.toLowerCase pre), (JS.toLowerCase post).
    by rewrite !toLowerCase_app, Hci.
Qed.

End Strings.

(* ===================================================================== *)
(** * The filter *)
(* ===================================================================== *)

Section Filter.

Import App.

Implicit Types (query filterType : string) (t : Threat.t) (displayed : list Threat.t).

Lemma matchesSearch_spec query t : matchesSearch query t = true <-> text_match query t.
Proof.
  unfold matchesSearch, text_match.
  rewrite !orb_true_iff, !includes_lower_spec, String.eqb_eq. tauto.
Qed.

Lemma matchesFilter_spec filterType t :
  matchesFilter filterType t = true <-> type_match filterType t.
Proof.
  unfold matchesFilter, type_match. by rewrite orb_true_iff, !String.eqb_eq.
Qed.

Lemma matches_spec query filterType t :
  (matchesSearch query t && matchesFilter filterType t)%bool = true
  <-> text_match query t /\ type_match filterType t.
Proof. by rewrite andb_true_iff, matchesSearch_spec, matchesFilter_spec. Qed.

Lemma filter_ext_in (p1 p2 : Threat.t -> bool) displayed :
  (forall t, p1 t = true <-> p2 t = true) -> List.filter p1 displayed = List.filter p2 displayed.
Proof.
  intros H. induction displayed as [| t l IH]; [reflexivity |]. cbn.
  rewrite IH. specialize (H t).
  destruct (p1 t), (p2 t); try reflexivity; exfalso; intuition discriminate.
Qed.





(** The query sql finds the SQL injection entry of the fallback corpus,
    and nothing else. *)
Example filter_sql :
  filteredThreats "sql" "all" MOCK_THREAT_LOGS = take 1 MOCK_THREAT_LOGS
  /\ (Threat.type <$> take 1 MOCK_THREAT_LOGS) = ["SQL Injection"].
Proof. split; vm_compute; reflexivity. Qed.

(** The type filter is an exact comparison: it is sensitive to case. *)
Example filter_type_exact :
  filteredThreats "" "SQL Injection" MOCK_THREAT_LOGS = take 1 MOCK_THREAT_LOGS
  /\ filteredThreats "" "sql injection" MOCK_THREAT_LOGS = [].
Proof. split; vm_compute; reflexivity. Qed.

End Filter.

(* ===================================================================== *)
(** * The API layer: base URL, severity, transform, fetch and feed *)
(* ===================================================================== *)

Section ApiLayer.

Import Api.

Implicit Types (log : BackendAttackLog) (env : Env).

Lemma length_append (u v : string) :
  String.length (u ++ v) = (String.length u + String.length v)%nat.
Proof.
  induction u as [| c u IH]; [reflexivity |].
  rewrite append_cons. cbn [String.length]. by rewrite IH.
Qed.

Lemma append_empty (u v : string) : u ++ v = "" -> u = "" /\ v = "".
Proof.
  destruct u as [| c u]; [intros H; by split |].
  rewrite append_cons. discriminate.
Qed.

Lemma or_else_nonempty (a b : string) : b <> "" -> JS.or_else a b <> "".
Proof.
  intros Hb. unfold JS.or_else, JS.truthy.
  destruct (String.eqb_spec a "") as [-> | Ha]; cbn; assumption.
Qed.

Lemma or_else_cases (a b : string) :
  (a = "" /\ JS.or_else a b = b) \/ (a <> "" /\ JS.or_else a b = a).
Proof.
  unfold JS.or_else, JS.truthy.
  destruct (String.eqb_spec a "") as [-> | Ha]; cbn; [by left | by right].
Qed.

(** The base URL is empty, so that requests go to the origin of the page,
    exactly on the two local host names; on every other host it is an
    absolute URL. *)
Theorem getApiBase_empty_iff_local (hostname : string) :
  (getApiBase hostname = "" <-> hostname = "localhost" \/ hostname = "127.0.0.1")
  /\ (getApiBase hostname <> "" ->
        getApiBase hostname = RENDER_BACKEND_URL
        \/ getApiBase hostname = "http://" ++ hostname ++ ":5000").
Proof.
  split.
  - split.
    + unfold getApiBase.
      destruct (JS.includes hostname "onrender.com" || JS.includes hostname "vercel.app")%bool;
        [discriminate |].
      destruct (String.eqb_spec hostname "localhost") as [-> | H1]; [by left |].
      destruct (String.eqb_spec hostname "127.0.0.1") as [-> | H2]; [by right |].
      cbn [negb andb]. intros H. apply append_empty in H as [H _]. discriminate H.
    + intros [-> | ->]; reflexivity.
  - unfold getApiBase.
    destruct (JS.includes hostname "onrender.com" || JS.includes hostname "vercel.app")%bool;
      [by left |].
    destruct (negb (String.eqb hostname "localhost") && negb (String.eqb hostname "127.0.0.1"))%bool;
      [by right | contradiction].
Qed.

Lemma getApiBase_empty_iff_local_witness :
  getApiBase "192.168.1.20" = RENDER_BACKEND_URL
  \/ getApiBase "192.168.1.20" = "http://" ++ "192.168.1.20" ++ ":5000".
Proof.
  apply (proj2 (getApiBase_empty_iff_local "192.168.1.20")). discriminate.
Defined.

(** The severity table read backwards: only the two injection types are
    critical, only XSS and directory traversal are high, only port scans
    and normal traffic are low; the comparison is exact. *)
Theorem getSeverity_levels (attackType : string) :
  (getSeverity attackType = critical
     <-> attackType = "SQL Injection" \/ attackType = "Command Injection")
  /\ (getSeverity attackType = high
        <-> attackType = "XSS" \/ attackType = "Directory Traversal")
  /\ (getSeverity attackType = low
        <-> attackType = "Port Scan" \/ attackType = "Normal").
Proof.
  unfold getSeverity, severityMap. cbn [table_get].
  repeat match goal with
         | |- context [String.eqb ?k attackType] =>
             destruct (String.eqb_spec k attackType) as [<- | ?]
         end;
    repeat split; intros H; try discriminate H; try tauto;
    try (destruct H as [H | H]; (discriminate H || congruence)).
Qed.

Lemma getSeverity_levels_witness : getSeverity "Command Injection" = critical.
Proof.
  apply (proj1 (getSeverity_levels "Command Injection")). by right.
Defined.

(** ** The transform *)

Lemma transform_type env log :
  Threat.type (transformToThreat env log) = JS.or_else (attack_type log) "Unknown".
Proof. reflexivity. Qed.

Lemma transform_severity env log :
  Threat.severity (transformToThreat env log)
  = getSeverity (JS.or_else (attack_type log) "Unknown").
Proof. reflexivity. Qed.

Lemma transform_id env log :
  Threat.id (transformToThreat env log) = JS.String_of_number (log_id log).
Proof. reflexivity. Qed.

Lemma transform_location env log :
  Threat.location (transformToThreat env log)
  = if (JS.truthy (city log) && negb (String.eqb (city log) "Unknown"))%bool
    then city log ++ ", " ++ country log
    else JS.or_else (country log) "Unknown".
Proof. reflexivity. Qed.

Lemma transform_description env log :
  Threat.description (transformToThreat env log)
  = match payload log with
    | Some p => if JS.truthy p then payload_text log p else request_text log
    | None => request_text log
    end.
Proof. reflexivity. Qed.

(** The displayed fields of a transformed record are never empty: a
    missing attack type is shown as Unknown, a missing or unknown city
    leaves the country as location, and a missing country too leaves the
    word Unknown. *)
Theorem transform_fields_never_empty env log :
  Threat.type (transformToThreat env log) <> ""
  /\ Threat.location (transformToThreat env log) <> ""
  /\ Threat.description (transformToThreat env log) <> ""
  /\ (attack_type log = "" -> Threat.type (transformToThreat env log) = "Unknown")
  /\ (attack_type log <> "" -> Threat.type (transformToThreat env log) = attack_type log)
  /\ (city log = "" \/ city log = "Unknown" ->
        (country log = "" -> Threat.location (transformToThreat env log) = "Unknown")
        /\ (country log <> "" -> Threat.location (transformToThreat env log) = country log))
  /\ (city log <> "" -> city log <> "Unknown" ->
        Threat.location (transformToThreat env log) = city log ++ ", " ++ country log).
Proof.
  rewrite transform_type, transform_location, transform_description.
  split; [by apply or_else_nonempty |]. split.
  { destruct (JS.truthy (city log) && negb (String.eqb (city log) "Unknown"))%bool.
    - intros H. apply append_empty in H as [_ H]. apply append_empty in H as [H _].
      discriminate H.
    - by apply or_else_nonempty. }
  split.
  { assert (Hreq : request_text log <> "").
    { unfold request_text. intros H. apply append_empty in H as [H _]. discriminate H. }
    destruct (payload log) as [p |]; [| exact Hreq].
    destruct (JS.truthy p); [| exact Hreq].
    unfold payload_text. intros H. apply append_empty in H as [H _]. discriminate H. }
  split.
  { intros ->. reflexivity. }
  split.
  { intros H. destruct (or_else_cases (attack_type log) "Unknown") as [[? _] | [_ ->]]; done. }
  split.
  { intros Hcity.
    assert (E : (JS.truthy (city log) && negb (String.eqb (city log) "Unknown"))%bool = false).
    { destruct Hcity as [-> | ->]; reflexivity. }
    rewrite E. split.
    - intros ->. reflexivity.
    - intros H. destruct (or_else_cases (country log) "Unknown") as [[? _] | [_ ->]]; done. }
  intros H1 H2. unfold JS.truthy.
  destruct (String.eqb_spec (city log) "") as [? | _]; [contradiction |].
  destruct (String.eqb_spec (city log) "Unknown") as [? | _]; [contradiction |].
  reflexivity.
Qed.

Lemma transform_fields_never_empty_witness :
  Threat.location
    (transformToThreat env_zero
       (mkLog 7 "2024-05-01T10:00:00" "192.0.2.1" "" "Unknown" "/" "GET" None "" ""))
  = "Unknown"
  /\ Threat.type
       (transformToThreat env_zero
          (mkLog 7 "2024-05-01T10:00:00" "192.0.2.1" "" "Unknown" "/" "GET" None "" ""))
     = "Unknown".
Proof.
  destruct (transform_fields_never_empty env_zero
              (mkLog 7 "2024-05-01T10:00:00" "192.0.2.1" "" "Unknown" "/" "GET" None "" ""))
    as (_ & _ & _ & Htype & _ & Hloc & _).
  split; [apply Hloc; [by right | reflexivity] | by apply Htype].
Defined.

(** Severity and confidence agree: a threat classified high or critical
    has a confidence from 85 to 99, a confidence below 85 occurs exactly
    for normal traffic, which is of low severity, and a record without an
    attack type is of medium severity with a confidence of at least 85. *)
Theorem severity_confidence_agree env log :
  JS.is_random (random env) ->
  (Threat.severity (transformToThreat env log) = critical
   \/ Threat.severity (transformToThreat env log) = high ->
     85 <= Threat.confidence (transformToThreat env log) <= 99)
  /\ (Threat.confidence (transformToThreat env log) < 85 <-> attack_type log = "Normal")
  /\ (attack_type log = "Normal" -> Threat.severity (transformToThreat env log) = low)
  /\ (attack_type log = "" ->
        Threat.severity (transformToThreat env log) = medium
        /\ 85 <= Threat.confidence (transformToThreat env log)).
Proof.
  intros Hr. rewrite transform_severity, transform_confidence.
  destruct (String.eqb_spec (attack_type log) "Normal") as [Hn | Hn].
  - pose proof Hn as Hn'. apply attackType_normal in Hn'. rewrite Hn'.
    pose proof (getConfidence_normal (random env) Hr) as Hc.
    split; [intros [H | H]; discriminate H |].
    split; [split; [done | lia] |].
    split; [reflexivity |].
    intros H. rewrite H in Hn. discriminate Hn.
  - pose proof Hn as Hn'. rewrite <- attackType_normal in Hn'.
    destruct (getConfidence_attack _ (random env) Hn' Hr) as [_ Hc].
    split; [intros _; exact Hc |].
    split; [split; [lia | contradiction] |].
    split; [contradiction |].
    intros H. rewrite H in Hc |- *. split; [reflexivity | lia].
Qed.

Lemma severity_confidence_agree_witness :
  85 <= Threat.confidence (transformToThreat env_zero log_one) <= 99.
Proof.
  apply (proj1 (severity_confidence_agree env_zero log_one
                  ltac:(unfold JS.is_random; cbn; lia))).
  right. reflexivity.
Defined.

(** ** Ids *)

Lemma to_int_not_nil (n : Z) :
  Z.to_int n <> Decimal.Pos Decimal.Nil /\ Z.to_int n <> Decimal.Neg Decimal.Nil.
Proof.
  destruct n as [| p | p]; cbn; split; try discriminate;
    intros H; injection H as H; by apply Unsigned.to_uint_nonnil in H.
Qed.

Lemma String_of_number_inj (n m : Z) :
  JS.String_of_number n = JS.String_of_number m -> n = m.
Proof.
  unfold JS.String_of_number. intros H.
  apply (f_equal NilZero.int_of_string) in H.
  destruct (to_int_not_nil n) as [Hn1 Hn2]. destruct (to_int_not_nil m) as [Hm1 Hm2].
  rewrite !NilZero.isi in H by assumption.
  injection H as H. by apply DecimalZ.to_int_inj.
Qed.

(** Ids follow the backend ids: two transformed records have the same id
    exactly when their backend ids are equal, so an arriving record is
    dropped as a duplicate exactly when the store, made of transformed
    records, holds its backend id, whatever else the two records say. *)
Theorem transform_id_follows_backend_id (envs : nat -> Env) (logs : list BackendAttackLog)
  env log :
  (forall env' log',
     Threat.id (transformToThreat env log) = Threat.id (transformToThreat env' log')
     <-> log_id log = log_id log')
  /\ (log_id log ∈ log_id <$> logs ->
        App.liveThreatsUpdater (transformToThreat env log)
          (imap (fun i l => transformToThreat (envs i) l) logs)
        = imap (fun i l => transformToThreat (envs i) l) logs)
  /\ (log_id log ∉ log_id <$> logs ->
        App.liveThreatsUpdater (transformToThreat env log)
          (imap (fun i l => transformToThreat (envs i) l) logs)
        = transformToThreat env log
            :: take 49 (imap (fun i l => transformToThreat (envs i) l) logs)).
Proof.
  assert (Hids : forall x, x ∈ ids (imap (fun i l => transformToThreat (envs i) l) logs)
                          <-> exists l, l ∈ logs /\ x = JS.String_of_number (log_id l)).
  { intros x. unfold ids. rewrite list_elem_of_fmap. split.
    - intros (t & -> & Ht). apply elem_of_lookup_imap in Ht as (i & l & -> & Hl).
      exists l. split; [by eapply list_elem_of_lookup_2 | reflexivity].
    - intros (l & Hl & ->). apply list_elem_of_lookup in Hl as [i Hi].
      exists (transformToThreat (envs i) l). split; [reflexivity |].
      apply elem_of_lookup_imap. by exists i, l. }
  split; [| split].
  - intros env' log'. rewrite !transform_id. split; [apply String_of_number_inj | congruence].
  - intros Hin. apply updater_duplicate. apply Hids.
    apply list_elem_of_fmap in Hin as (l & Hl & Hin). exists l. split; [exact Hin |].
    rewrite transform_id. by rewrite Hl.
  - intros Hnin. apply updater_fresh. rewrite Hids. intros (l & Hl & Heq).
    apply Hnin. apply list_elem_of_fmap. exists l. split; [| exact Hl].
    rewrite transform_id in Heq. by apply String_of_number_inj.
Qed.

Lemma transform_id_follows_backend_id_witness :
  App.liveThreatsUpdater (transformToThreat env_zero log_one)
    (imap (fun i l => transformToThreat env_zero l) [log_one])
  = imap (fun i l => transformToThreat env_zero l) [log_one].
Proof.
  apply (proj1 (proj2 (transform_id_follows_backend_id (fun _ => env_zero) [log_one]
                         env_zero log_one))).
  apply list_elem_of_fmap. exists log_one. split; [reflexivity | left].
Defined.

(** ** The length of the description *)

Lemma length_substring0 (n : nat) (u : string) :
  (String.length (JS.substring0 n u) <= n)%nat.
Proof.
  unfold JS.substring0. revert u. induction n as [| n IH]; intros [| c u]; cbn; try lia.
  specialize (IH u). lia.
Qed.

(** The description is bounded whatever the payload and the user agent:
    it has at most 136 characters beside the endpoint and the method. *)
Theorem description_length_bounded env log :
  (String.length (Threat.description (transformToThreat env log))
   <= 136 + String.length (endpoint log) + String.length (method log))%nat.
Proof.
  rewrite transform_description.
  assert (Hreq : (String.length (request_text log)
                  <= 92 + String.length (endpoint log) + String.length (method log))%nat).
  { unfold request_text. rewrite !length_append. cbn [String.length].
    pose proof (length_substring0 50 (user_agent log)) as Hua.
    destruct (or_else_cases (JS.substring0 50 (user_agent log)) "Unknown")
      as [[_ ->] | [_ ->]]; cbn [String.length]; lia. }
  destruct (payload log) as [p |]; [| lia].
  destruct (JS.truthy p); [| lia].
  unfold payload_text. rewrite !length_append.
  pose proof (length_substring0 100 p) as Hp.
  change (String.length JS.dq) with 1%nat.
  destruct (100 <? String.length p)%nat; cbn [String.length]; lia.
Qed.

(** ** [fetchThreats] and the feed *)

Lemma ids_imap_transform (envs : nat -> Env) (data : list BackendAttackLog) :
  ids (imap (fun i l => transformToThreat (envs i) l) data)
  = (fun l => JS.String_of_number (log_id l)) <$> data.
Proof.
  unfold ids. revert envs. induction data as [| l data IH]; intros envs; [reflexivity |].
  cbn. f_equal. apply (IH (fun i => envs (S i))).
Qed.

(** [fetchThreats] never throws.  When the request is rejected, answered
    with a status that is not ok, or answered with a body that is not JSON,
    it returns the empty list; otherwise it returns one threat per record,
    in the order of the records, whose ids are the backend ids in decimal.
    The limit is not enforced on the reply. *)
Theorem fetchThreats_result (limit : Z) (envs : nat -> Env) (o : ThreatsOutcome) :
  exists threats,
    fetchThreats limit envs o = inr threats
    /\ (o = ThreatsRejected
        \/ (exists r, o = ThreatsResolved r /\ (threats_ok r = false \/ threats_body r = None)) ->
        threats = [])
    /\ (forall data,
          o = ThreatsResolved (mkThreatsResponse true (Some data)) ->
          length threats = length data
          /\ ids threats = (fun l => JS.String_of_number (log_id l)) <$> data
          /\ forall i l, data !! i = Some l -> threats !! i = Some (transformToThreat (envs i) l)).
Proof.
  destruct o as [| [[] [data |]]]; cbn; eexists; (split; [reflexivity |]).
  - split; [done |]. intros d H. discriminate H.
  - split.
    + intros [H | (r & H & [Hk | Hb])]; [discriminate H | |]; injection H as <-;
        discriminate.
    + intros data' H. injection H as <-.
      split; [apply length_imap |]. split; [apply ids_imap_transform |].
      intros i l Hl. by rewrite list_lookup_imap, Hl.
  - split; [done |]. intros d H. discriminate H.
  - split; [done |]. intros d H. discriminate H.
  - split; [done |]. intros d H. discriminate H.
Qed.

Lemma fetchThreats_result_witness :
  exists threats,
    fetchThreats 20 (fun _ => env_zero)
      (ThreatsResolved (mkThreatsResponse false (Some [log_one]))) = inr threats
    /\ threats = [].
Proof.
  destruct (fetchThreats_result 20 (fun _ => env_zero)
              (ThreatsResolved (mkThreatsResponse false (Some [log_one]))))
    as (threats & E & Hfail & _).
  exists threats. split; [exact E |]. apply Hfail.
  right. eexists. split; [reflexivity | by left].
Defined.

(** The seed on mount.  A failed fetch, or an empty reply, leaves the
    dashboard exactly as it was.  A reply with records replaces the live
    store, whatever it held, by the transformed records, all of them, and
    marks the dashboard connected; the alert, the nodes and the detail
    view are not touched. *)
Theorem seedOnMount_effect (envs : nat -> Env) (o : ThreatsOutcome) (s : App.Dashboard) :
  exists s',
    App.seedOnMount envs o s = inr s'
    /\ (o = ThreatsRejected
        \/ (exists r, o = ThreatsResolved r
                      /\ (threats_ok r = false \/ threats_body r = None
                          \/ threats_body r = Some [])) ->
        s' = s)
    /\ (forall data,
          o = ThreatsResolved (mkThreatsResponse true (Some data)) -> data <> [] ->
          App.liveThreats s' = imap (fun i l => transformToThreat (envs i) l) data
          /\ length (App.liveThreats s') = length data
          /\ App.isBackendConnected s' = true)
    /\ App.attackAlert s' = App.attackAlert s
    /\ App.isAlertAcknowledged s' = App.isAlertAcknowledged s
    /\ App.selectedThreat s' = App.selectedThreat s
    /\ App.objects s' = App.objects s.
Proof.
  unfold App.seedOnMount.
  assert (Hsame : forall x : App.Dashboard,
            x = s ->
            App.attackAlert x = App.attackAlert s
            /\ App.isAlertAcknowledged x = App.isAlertAcknowledged s
            /\ App.selectedThreat x = App.selectedThreat s
            /\ App.objects x = App.objects s) by (by intros x ->).
  destruct o as [| [k body]].
  - exists s. split; [reflexivity |]. split; [done |].
    split; [intros d H; discriminate H | by apply Hsame].
  - destruct k.
    + destruct body as [[| l data] |].
      * exists s. split; [reflexivity |]. split; [done |].
        split; [| by apply Hsame].
        intros d H Hd. injection H as <-. contradiction.
      * eexists. split; [reflexivity |]. split.
        { intros [H | (r & H & [Hk | [Hb | Hb]])]; [discriminate H | | |];
            injection H as <-; discriminate. }
        split; [| repeat split].
        intros d H _. injection H as <-.
        split; [reflexivity |]. split; [cbn; by rewrite length_imap | reflexivity].
      * exists s. split; [reflexivity |]. split; [done |].
        split; [intros d H; discriminate H | by apply Hsame].
    + exists s. split; [reflexivity |]. split; [done |].
      split; [intros d H; discriminate H | by apply Hsame].
Qed.

Lemma seedOnMount_effect_witness :
  exists s', App.seedOnMount (fun _ => env_zero) ThreatsRejected App.initial = inr s'
    /\ s' = App.initial.
Proof.
  destruct (seedOnMount_effect (fun _ => env_zero) ThreatsRejected App.initial)
    as (s' & E & Hfail & _).
  exists s'. split; [exact E | apply Hfail; by left].
Defined.

(** A message that does not parse is dropped and the feed goes on: the
    messages of the feed act as the stream arrivals of those that parse,
    in order, and the others change nothing. *)
Theorem feed_drops_unparsed (msgs : list (Env * option BackendAttackLog)) (s : App.Dashboard) :
  App.feed msgs s
  = App.run (omap (fun m : Env * option BackendAttackLog =>
                     (fun l => App.StreamThreat (transformToThreat m.1 l)) <$> m.2) msgs) s
  /\ App.feed msgs s = App.feed (List.filter parses msgs) s.
Proof.
  split.
  - revert s. induction msgs as [| [env [l |]] msgs IH]; intros s; [reflexivity | |].
    + cbn. destruct (App.onThreat (transformToThreat env l) s) as [s1 |]; cbn;
        [apply IH | reflexivity].
    + cbn. apply IH.
  - revert s. induction msgs as [| [env [l |]] msgs IH]; intros s; [reflexivity | |].
    + cbn. destruct (App.onThreat (transformToThreat env l) s) as [s1 |]; cbn;
        [apply IH | reflexivity].
    + cbn. apply IH.
Qed.

End ApiLayer.

(* ===================================================================== *)
(** * Navigation in the detail view *)
(* ===================================================================== *)

Section Navigation.

Import App.

Implicit Types (l : list Threat.t) (selected t : Threat.t) (d : Direction).

Lemma findIndex_from_first {A : Type} (p : A -> bool) (l1 : list A) (a : A) (l2 : list A) i :
  (forall y, y ∈ l1 -> p y = false) -> p a = true ->
  JS.findIndex_from p (l1 ++ a :: l2) i = i + Z.of_nat (length l1).
Proof.
  revert i. induction l1 as [| x l1 IH]; intros i Hl1 Ha; cbn.
  - rewrite Ha. lia.
  - rewrite (Hl1 x) by left. rewrite IH; [lia | | exact Ha].
    intros y Hy. apply Hl1. by right.
Qed.

Lemma findIndex_from_none {A : Type} (p : A -> bool) (l : list A) i :
  (forall y, y ∈ l -> p y = false) -> JS.findIndex_from p l i = -1.
Proof.
  revert i. induction l as [| x l IH]; intros i Hl; cbn; [reflexivity |].
  rewrite (Hl x) by left. apply IH. intros y Hy. apply Hl. by right.
Qed.

Lemma findIndex_from_range {A : Type} (p : A -> bool) (l : list A) i :
  JS.findIndex_from p l i = -1
  \/ i <= JS.findIndex_from p l i < i + Z.of_nat (length l).
Proof.
  revert i. induction l as [| x l IH]; intros i; cbn [JS.findIndex_from]; [by left |].
  destruct (p x); [right; cbn [length]; lia |].
  destruct (IH (i + 1)) as [H | H]; [by left | right; cbn [length]; lia].
Qed.

Lemma rem_cases a n :
  0 < n ->
  (0 <= a < n -> Z.rem a n = a) /\ (n <= a < 2 * n -> Z.rem a n = a - n).
Proof.
  intros Hn. split; intros Ha; [by apply Z.rem_small |].
  rewrite Z.rem_mod_nonneg by lia.
  replace a with (a - n + 1 * n) at 1 by lia.
  rewrite Z_mod_plus_full. apply Z.mod_small. lia.
Qed.

(** Where [navigateThreat] goes, given the index that [findIndex] found. *)
Lemma navigate_core selected l c :
  l <> [] ->
  JS.findIndex (fun a => String.eqb (Threat.id a) (Threat.id selected)) l = c ->
  -1 <= c < Z.of_nat (length l) ->
  navigateThreat Next (Some selected) l
    = Some (l !! (if decide (c + 1 < Z.of_nat (length l)) then Z.to_nat (c + 1) else 0%nat))
  /\ navigateThreat Prev (Some selected) l
     = Some (l !! (if decide (1 <= c) then Z.to_nat (c - 1)
                   else (length l - Z.to_nat (1 - c))%nat)).
Proof.
  intros Hne Hc Hr.
  assert (Hn : 0 < Z.of_nat (length l)) by (destruct l; [done | cbn [length]; lia]).
  destruct (rem_cases (c + 1) _ Hn) as [Hs1 Hw1].
  destruct (rem_cases (c - 1 + Z.of_nat (length l)) _ Hn) as [Hs2 Hw2].
  unfold navigateThreat, JS.remainder. rewrite Hc.
  destruct (Z.eqb_spec (Z.of_nat (length l)) 0) as [? | _]; [lia |].
  split; f_equal; unfold JS.element.
  - destruct (decide (c + 1 < Z.of_nat (length l))) as [Hlt | Hge].
    + rewrite Hs1 by lia. destruct (Z.ltb_spec (c + 1) 0); [lia | reflexivity].
    + assert (c + 1 = Z.of_nat (length l)) as -> by lia.
      rewrite Z.rem_same by lia. reflexivity.
  - destruct (decide (1 <= c)) as [Hpos | Hsmall].
    + rewrite Hw2 by lia.
      destruct (Z.ltb_spec (c - 1 + Z.of_nat (length l) - Z.of_nat (length l)) 0); [lia |].
      f_equal. lia.
    + destruct (decide (c - 1 + Z.of_nat (length l) = -1)) as [Hm | Hm].
      * assert (Z.of_nat (length l) = 1) as Hone by lia. rewrite Hone.
        rewrite Z.rem_1_r. cbn. f_equal. lia.
      * rewrite Hs2 by lia.
        destruct (Z.ltb_spec (c - 1 + Z.of_nat (length l)) 0); [lia |]. f_equal. lia.
Qed.

Lemma findIndex_bounds selected l :
  -1 <= JS.findIndex (fun a => String.eqb (Threat.id a) (Threat.id selected)) l
     < Z.of_nat (length l) \/ l = [].
Proof.
  destruct l as [| x l]; [by right | left].
  unfold JS.findIndex.
  destruct (findIndex_from_range
              (fun a => String.eqb (Threat.id a) (Threat.id selected)) (x :: l) 0)
    as [-> | H]; [cbn [length]; lia | lia].
Qed.

Lemma allThreats_nonempty connected (live : list Threat.t) : allThreats connected live <> [].
Proof.
  unfold allThreats.
  destruct (connected && (0 <? length live)%nat)%bool eqn:E; [| discriminate].
  destruct live; [| discriminate].
  apply andb_true_iff in E as [_ E]. discriminate E.
Qed.

Lemma navigate_lands d selected l :
  l <> [] -> exists t, navigateThreat d (Some selected) l = Some (Some t) /\ t ∈ l.
Proof.
  intros Hne.
  pose proof (findIndex_bounds selected l) as Hr.
  remember (JS.findIndex (fun a => String.eqb (Threat.id a) (Threat.id selected)) l)
    as c eqn:Hc.
  symmetry in Hc. destruct Hr as [Hr | ?]; [| contradiction].
  destruct (navigate_core selected l c Hne Hc Hr) as [Hnext Hprev].
  assert (Hlook : forall i : nat, (i < length l)%nat -> exists t, l !! i = Some t /\ t ∈ l).
  { intros i Hi. destruct (lookup_lt_is_Some_2 l i Hi) as [t Ht].
    exists t. split; [exact Ht | by eapply list_elem_of_lookup_2]. }
  assert (Hlen : (0 < length l)%nat) by (destruct l; [done | cbn; lia]).
  destruct d.
  - rewrite Hnext.
    destruct (Hlook (if decide (c + 1 < Z.of_nat (length l))
                     then Z.to_nat (c + 1) else 0%nat))
      as (t & Ht & Hel); [destruct (decide (c + 1 < Z.of_nat (length l))); lia |].
    exists t. by rewrite Ht.
  - rewrite Hprev.
    destruct (Hlook (if decide (1 <= c) then Z.to_nat (c - 1)
                     else (length l - Z.to_nat (1 - c))%nat))
      as (t & Ht & Hel); [destruct (decide (1 <= c)); lia |].
    exists t. by rewrite Ht.
Qed.

(** Navigation never leaves the displayed list and never closes the detail
    view: whatever threat is selected, also one that is no longer
    displayed, the next and the previous threat are entries of the list,
    as long as the list is not empty; the displayed list of the dashboard
    never is.  Without a selection nothing happens. *)
Theorem navigation_stays_in_list d selected l :
  (l <> [] ->
     exists t, navigateThreat d (Some selected) l = Some (Some t) /\ t ∈ l)
  /\ navigateThreat d None l = None
  /\ (forall s : Dashboard,
        selectedThreat s = Some selected ->
        exists t,
          selectedThreat (clickNavigate d s) = Some t
          /\ t ∈ allThreats (isBackendConnected s) (liveThreats s))
  /\ (forall s : Dashboard, selectedThreat s = None -> clickNavigate d s = s).
Proof.
  assert (Hin := navigate_lands d selected).
  split; [apply Hin |]. split; [reflexivity |]. split.
  - intros s Hs.
    destruct (Hin _ (allThreats_nonempty (isBackendConnected s) (liveThreats s)))
      as (t & Ht & Hel).
    exists t. unfold clickNavigate. rewrite Hs, Ht. by split.
  - intros s Hs. unfold clickNavigate. by rewrite Hs.
Qed.

Lemma navigation_stays_in_list_witness :
  exists t, navigateThreat Prev (Some (sample "zz")) MOCK_THREAT_LOGS = Some (Some t)
    /\ t ∈ MOCK_THREAT_LOGS.
Proof.
  apply (proj1 (navigation_stays_in_list Prev (sample "zz") MOCK_THREAT_LOGS)).
  discriminate.
Defined.

(** The keys of the detail view.  Without a selection no key does
    anything.  With one, the arrow keys select an entry of the list, so
    they never close the view, Escape closes it, and every other key is
    ignored. *)
Theorem keyboard_navigation (key : string) selected l :
  handleKeyDown key None l = None
  /\ (l <> [] -> key = "ArrowLeft" \/ key = "ArrowRight" ->
        exists t, handleKeyDown key (Some selected) l = Some (Some t) /\ t ∈ l)
  /\ handleKeyDown "ArrowLeft" (Some selected) l = navigateThreat Prev (Some selected) l
  /\ handleKeyDown "ArrowRight" (Some selected) l = navigateThreat Next (Some selected) l
  /\ handleKeyDown "Escape" (Some selected) l = Some None
  /\ (key <> "ArrowLeft" -> key <> "ArrowRight" -> key <> "Escape" ->
        handleKeyDown key (Some selected) l = None).
Proof.
  split; [reflexivity |]. split.
  { intros Hne [-> | ->];
      [exact (navigate_lands Prev selected l Hne) | exact (navigate_lands Next selected l Hne)]. }
  split; [reflexivity |]. split; [reflexivity |]. split; [reflexivity |].
  intros H1 H2 H3. unfold handleKeyDown.
  destruct (String.eqb_spec key "ArrowLeft"); [contradiction |].
  destruct (String.eqb_spec key "ArrowRight"); [contradiction |].
  by destruct (String.eqb_spec key "Escape").
Qed.

Lemma keyboard_navigation_witness :
  exists t, handleKeyDown "ArrowLeft" (Some (sample "zz")) MOCK_THREAT_LOGS = Some (Some t)
    /\ t ∈ MOCK_THREAT_LOGS.
Proof.
  apply (proj1 (proj2 (keyboard_navigation "ArrowLeft" (sample "zz") MOCK_THREAT_LOGS)));
    [discriminate | by left].
Defined.

Lemma findIndex_first selected l1 a l2 :
  Threat.id a = Threat.id selected -> Threat.id selected ∉ ids l1 ->
  JS.findIndex (fun x => String.eqb (Threat.id x) (Threat.id selected)) (l1 ++ a :: l2)
  = Z.of_nat (length l1).
Proof.
  intros Ha Hl1. unfold JS.findIndex. rewrite findIndex_from_first; [lia | |].
  - intros y Hy. apply String.eqb_neq. intros Heq. apply Hl1.
    unfold ids. apply list_elem_of_fmap. by exists y.
  - by apply String.eqb_eq.
Qed.

Lemma findIndex_at selected l (k : nat) :
  NoDup (ids l) -> l !! k = Some selected ->
  JS.findIndex (fun x => String.eqb (Threat.id x) (Threat.id selected)) l = Z.of_nat k.
Proof.
  intros Hnd Hk.
  pose proof (lookup_lt_Some _ _ _ Hk) as Hlt.
  rewrite <- (take_drop_middle l k selected Hk) at 1.
  rewrite findIndex_first; [rewrite length_take; lia | reflexivity |].
  unfold ids. rewrite list_elem_of_fmap. intros (y & Hid & Hy).
  apply elem_of_take in Hy as (j & Hj & Hjk).
  assert (Hj' : ids l !! j = Some (Threat.id selected)).
  { unfold ids. rewrite list_lookup_fmap, Hj. cbn. by rewrite Hid. }
  assert (Hk' : ids l !! k = Some (Threat.id selected)).
  { unfold ids. by rewrite list_lookup_fmap, Hk. }
  pose proof (NoDup_lookup _ _ _ _ Hnd Hj' Hk'). lia.
Qed.

(** With distinct ids in the list, navigation is circular and reversible:
    from the entry at index [k] the next entry is the one at [k + 1], or
    the first one after the last; the previous entry is the one at
    [k - 1], or the last one before the first; and going to the next
    entry and then to the previous one, or the other way round, comes
    back to the entry where it started. *)
Theorem navigation_cycles selected l (k : nat) :
  NoDup (ids l) -> l !! k = Some selected ->
  navigateThreat Next (Some selected) l
    = Some (l !! (if decide (S k < length l)%nat then S k else 0%nat))
  /\ navigateThreat Prev (Some selected) l
     = Some (l !! (if decide (k = 0%nat) then (length l - 1)%nat else (k - 1)%nat))
  /\ (forall t, navigateThreat Next (Some selected) l = Some (Some t) ->
                navigateThreat Prev (Some t) l = Some (Some selected))
  /\ (forall t, navigateThreat Prev (Some selected) l = Some (Some t) ->
                navigateThreat Next (Some t) l = Some (Some selected)).
Proof.
  intros Hnd Hk.
  assert (Hstep : forall (j : nat) x, l !! j = Some x ->
            navigateThreat Next (Some x) l
              = Some (l !! (if decide (S j < length l)%nat then S j else 0%nat))
            /\ navigateThreat Prev (Some x) l
               = Some (l !! (if decide (j = 0%nat) then (length l - 1)%nat else (j - 1)%nat))).
  { intros j x Hj.
    pose proof (lookup_lt_Some _ _ _ Hj) as Hlt.
    assert (Hne : l <> []) by (intros ->; cbn in Hlt; lia).
    destruct (navigate_core x l (Z.of_nat j) Hne (findIndex_at x l j Hnd Hj) ltac:(lia))
      as [Hn Hp].
    rewrite Hn, Hp. split; do 2 f_equal.
    - destruct (decide (Z.of_nat j + 1 < Z.of_nat (length l))),
        (decide (S j < length l)%nat); lia.
    - destruct (decide (1 <= Z.of_nat j)), (decide (j = 0%nat)); lia. }
  pose proof (lookup_lt_Some _ _ _ Hk) as Hlt.
  destruct (Hstep k selected Hk) as [Hn Hp].
  split; [exact Hn |]. split; [exact Hp |]. split.
  - intros t Ht. rewrite Hn in Ht. injection Ht as Ht.
    destruct (Hstep _ t Ht) as [_ Hback]. rewrite Hback. f_equal.
    rewrite <- Hk. f_equal.
    destruct (decide (S k < length l)%nat); [by rewrite decide_False by lia; lia |].
    rewrite decide_True by done. lia.
  - intros t Ht. rewrite Hp in Ht. injection Ht as Ht.
    destruct (Hstep _ t Ht) as [Hforth _]. rewrite Hforth. f_equal.
    rewrite <- Hk. f_equal.
    destruct (decide (k = 0%nat)) as [-> | Hk0].
    + rewrite decide_False by lia. reflexivity.
    + rewrite decide_True by lia. lia.
Qed.

Lemma navigation_cycles_witness :
  navigateThreat Next (Some (sample "c")) [sample "a"; sample "b"; sample "c"]
  = Some (Some (sample "a")).
Proof.
  assert (Hnd : NoDup (ids [sample "a"; sample "b"; sample "c"])).
  { cbn. repeat constructor; cbn; intros H; repeat (apply elem_of_cons in H as [H | H]);
      try discriminate H; by apply not_elem_of_nil in H. }
  destruct (navigation_cycles (sample "c") [sample "a"; sample "b"; sample "c"] 2
              Hnd eq_refl) as [H _].
  exact H.
Defined.

(** When the selected threat is no longer in the list, the next entry is
    the first of the list and the previous entry is the last but one (the
    only one, in a list of one). *)
Theorem navigation_from_absent selected l :
  Threat.id selected ∉ ids l -> l <> [] ->
  navigateThreat Next (Some selected) l = Some (l !! 0%nat)
  /\ navigateThreat Prev (Some selected) l = Some (l !! (length l - 2)%nat).
Proof.
  intros Hnin Hne.
  assert (Hc : JS.findIndex (fun a => String.eqb (Threat.id a) (Threat.id selected)) l = -1).
  { unfold JS.findIndex. apply findIndex_from_none. intros y Hy.
    apply String.eqb_neq. intros Heq. apply Hnin.
    unfold ids. apply list_elem_of_fmap. by exists y. }
  assert (Hlen : (0 < length l)%nat) by (destruct l; [done | cbn; lia]).
  destruct (navigate_core selected l (-1) Hne Hc ltac:(lia)) as [Hn Hp].
  rewrite Hn, Hp. split; do 2 f_equal;
    try (destruct (decide (-1 + 1 < Z.of_nat (length l))); lia).
Qed.

Lemma navigation_from_absent_witness :
  navigateThreat Prev (Some (sample "zz")) MOCK_THREAT_LOGS = Some (MOCK_THREAT_LOGS !! 4%nat).
Proof.
  assert (Hnin : Threat.id (sample "zz") ∉ ids MOCK_THREAT_LOGS).
  { cbn. intros H. repeat (apply elem_of_cons in H as [H | H]);
      try discriminate H; by apply not_elem_of_nil in H. }
  destruct (navigation_from_absent (sample "zz") MOCK_THREAT_LOGS Hnin ltac:(discriminate))
    as [_ H].
  exact H.
Defined.

(** When two neighbouring entries share an id, navigation is by the first
    of them: from the second one the next entry is the second one again,
    so that the entries behind it are out of reach of the next button. *)
Theorem navigation_stuck_on_shared_id l1 a b l2 :
  Threat.id a = Threat.id b -> Threat.id a ∉ ids l1 ->
  navigateThreat Next (Some b) (l1 ++ a :: b :: l2) = Some (Some b)
  /\ navigateThreat Next (Some a) (l1 ++ a :: b :: l2) = Some (Some b)
  /\ navigateThreat Prev (Some b) (l1 ++ a :: b :: l2)
     = navigateThreat Prev (Some a) (l1 ++ a :: b :: l2).
Proof.
  intros Hid Hnin.
  assert (Hne : (l1 ++ a :: b :: l2)%list <> []) by (by destruct l1).
  assert (Hlen : length (l1 ++ a :: b :: l2) = (length l1 + 2 + length l2)%nat).
  { rewrite length_app. cbn. lia. }
  assert (Hb : (l1 ++ a :: b :: l2)%list !! S (length l1) = Some b).
  { rewrite lookup_app_r by lia. by replace (S (length l1) - length l1)%nat with 1%nat by lia. }
  assert (Hgo : forall x, Threat.id x = Threat.id a ->
            navigateThreat Next (Some x) (l1 ++ a :: b :: l2) = Some (Some b)).
  { intros x Hx.
    destruct (navigate_core x (l1 ++ a :: b :: l2) (Z.of_nat (length l1)) Hne)
      as [Hn _]; [| lia |].
    - apply findIndex_first; [by rewrite Hx | by rewrite Hx].
    - rewrite Hn, <- Hb. do 2 f_equal.
      destruct (decide (Z.of_nat (length l1) + 1 < Z.of_nat (length (l1 ++ a :: b :: l2))));
        lia. }
  split; [by apply Hgo |]. split; [by apply Hgo |].
  unfold navigateThreat. by rewrite Hid.
Qed.

Lemma navigation_stuck_on_shared_id_witness :
  navigateThreat Next (Some (sample "1")) ([] ++ sample "1" :: sample "1" :: [sample "2"])
  = Some (Some (sample "1")).
Proof.
  destruct (navigation_stuck_on_shared_id [] (sample "1") (sample "1") [sample "2"]
              eq_refl ltac:(apply not_elem_of_nil)) as [H _].
  exact H.
Defined.

End Navigation.

(* ===================================================================== *)
(** * Filter controls *)
(* ===================================================================== *)

Section FilterControls.

Import App.

Implicit Types (query filterType : string) (t : Threat.t) (displayed : list Threat.t).

Lemma existsb_eqb_elem (x : string) (set : list string) :
  existsb (String.eqb x) set = true <-> x ∈ set.
Proof.
  rewrite existsb_exists. split.
  - intros (y & Hy & Heq). apply String.eqb_eq in Heq. subst y. by apply list_elem_of_In.
  - intros Hx. exists x. split; [by apply list_elem_of_In | apply String.eqb_refl].
Qed.

Lemma Set_fold_spec (l set : list string) :
  NoDup set ->
  NoDup (fold_left (fun set x => if existsb (String.eqb x) set then set else (set ++ [x])%list)
           l set)
  /\ (forall x,
        x ∈ fold_left (fun set x => if existsb (String.eqb x) set then set else (set ++ [x])%list)
              l set
        <-> x ∈ set \/ x ∈ l).
Proof.
  revert set. induction l as [| y l IH]; intros set Hnd; cbn [fold_left].
  - split; [exact Hnd |]. intros x. split; [by left | intros [H | H]; [exact H | inversion H]].
  - destruct (existsb (String.eqb y) set) eqn:E.
    + apply existsb_eqb_elem in E. destruct (IH set Hnd) as [Hn Hel].
      split; [exact Hn |]. intros x. rewrite Hel, elem_of_cons.
      split; [tauto |]. intros [H | [-> | H]]; tauto.
    + assert (Hy : y ∉ set).
      { intros Hy. apply existsb_eqb_elem in Hy. congruence. }
      destruct (IH (set ++ [y])%list) as [Hn Hel].
      { apply NoDup_app. split; [exact Hnd |]. split; [| apply NoDup_singleton].
        intros x Hx Hx'. apply list_elem_of_singleton in Hx'. by subst x. }
      split; [exact Hn |]. intros x.
      rewrite Hel, elem_of_app, list_elem_of_singleton, elem_of_cons. tauto.
Qed.

Lemma filter_default displayed : filteredThreats "" "all" displayed = displayed.
Proof.
  unfold filteredThreats. induction displayed as [| t l IH]; [reflexivity |].
  cbn [List.filter]. rewrite IH. reflexivity.
Qed.

Lemma filter_In_matches query filterType displayed t :
  In t (filteredThreats query filterType displayed)
  <-> In t displayed /\ text_match query t /\ type_match filterType t.
Proof. unfold filteredThreats. by rewrite filter_In, matches_spec. Qed.

(** The options of the type filter: the word all, followed by the types of
    the displayed threats, each once.  Every displayed type is offered,
    every offered option other than all is the type of a displayed threat,
    and with an empty search every offered option yields at least one
    threat.  The options are pairwise distinct unless a displayed threat
    has the type all. *)
Theorem attackTypes_options displayed :
  (exists types, attackTypes displayed = "all" :: types /\ NoDup types)
  /\ (forall t, t ∈ displayed -> Threat.type t ∈ attackTypes displayed)
  /\ (forall opt, opt ∈ attackTypes displayed ->
        opt = "all" \/ exists t, t ∈ displayed /\ Threat.type t = opt)
  /\ (NoDup (attackTypes displayed) <-> forall t, t ∈ displayed -> Threat.type t <> "all")
  /\ (displayed <> [] ->
      forall opt, opt ∈ attackTypes displayed ->
        filteredThreats "" opt displayed <> []).
Proof.
  unfold attackTypes, JS.Set_spread.
  destruct (Set_fold_spec (map Threat.type displayed) [] (NoDup_nil_2)) as [Hnd Hel].
  assert (Hel' : forall x,
            x ∈ fold_left
                  (fun set x => if existsb (String.eqb x) set then set else (set ++ [x])%list)
                  (map Threat.type displayed) []
            <-> exists t, t ∈ displayed /\ Threat.type t = x).
  { intros x. rewrite Hel. change (map Threat.type displayed) with (Threat.type <$> displayed).
    rewrite list_elem_of_fmap. split.
    - intros [H | (t & -> & Ht)]; [inversion H | by exists t].
    - intros (t & Ht & <-). right. by exists t. }
  split; [eexists; by split |]. split.
  { intros t Ht. apply elem_of_cons. right. apply Hel'. by exists t. }
  split.
  { intros opt Ho. apply elem_of_cons in Ho as [-> | Ho]; [by left | right].
    by apply Hel'. }
  split.
  { rewrite NoDup_cons. split.
    - intros [Hnin _] t Ht Heq. apply Hnin. apply Hel'. by exists t.
    - intros Hno. split; [| exact Hnd]. intros Hin. apply Hel' in Hin as (t & Ht & Heq).
      by apply (Hno t). }
  intros Hne opt Ho Hempty.
  assert (Hnone : forall t, ~ In t (filteredThreats "" opt displayed))
    by (intros t; rewrite Hempty; intros []).
  apply elem_of_cons in Ho as [-> | Ho].
  - rewrite filter_default in Hempty. contradiction.
  - apply Hel' in Ho as (t & Ht & Heq). apply (Hnone t).
    apply filter_In_matches. split; [by apply list_elem_of_In |].
    split; [by left | by right].
Qed.

Lemma attackTypes_options_witness :
  filteredThreats "" "XSS Attempt" MOCK_THREAT_LOGS <> [].
Proof.
  apply (proj2 (proj2 (proj2 (proj2 (attackTypes_options MOCK_THREAT_LOGS))))).
  - discriminate.
  - vm_compute. right. right. left.
Defined.

(** Without a search text and with the type filter on all, the filtered
    list is the displayed list, and the line Showing n of m threats reads
    n = 6 and m = the size of the displayed list, which is at least 6; the
    button that clears the filters brings this state about and leaves the
    displayed list as it is. *)
Theorem default_view_shows_six (s : Dashboard) :
  filteredThreats "" "all" (allThreats (isBackendConnected s) (liveThreats s))
    = allThreats (isBackendConnected s) (liveThreats s)
  /\ (6 <= matchCount "" "all" (allThreats (isBackendConnected s) (liveThreats s)))%nat
  /\ shownCount "" "all" (allThreats (isBackendConnected s) (liveThreats s)) = 6%nat
  /\ searchQuery (clearFilters s) = ""
  /\ filterType (clearFilters s) = "all"
  /\ allThreats (isBackendConnected (clearFilters s)) (liveThreats (clearFilters s))
     = allThreats (isBackendConnected s) (liveThreats s).
Proof.
  assert (Hlen : (6 <= length (allThreats (isBackendConnected s) (liveThreats s)))%nat).
  { destruct (isBackendConnected s) eqn:Ec, (liveThreats s) as [| t live] eqn:El;
      try (rewrite allThreats_fallback by auto; cbn; lia).
    rewrite allThreats_live by done. rewrite length_app, length_take, MOCK_length. lia. }
  unfold matchCount, shownCount. rewrite filter_default, length_take.
  repeat split; try lia.
Qed.

Lemma append_assoc (u v w : string) : (u ++ v) ++ w = u ++ v ++ w.
Proof.
  induction u as [| c u IH]; [reflexivity |].
  rewrite !append_cons. by rewrite IH.
Qed.

Lemma ci_substring_trans (q q' u : string) :
  ci_substring q q' -> ci_substring q' u -> ci_substring q u.
Proof.
  rewrite <- !includes_lower_spec, !includes_spec.
  intros (a & b & Hq) (c & d & Hu).
  exists (c ++ a), (b ++ d). rewrite Hu, Hq. by rewrite !append_assoc.
Qed.

Lemma ci_substring_of_empty (q : string) : ci_substring q "" -> q = "".
Proof.
  intros (pre & mid & post & H & Hci).
  symmetry in H. apply append_empty in H as [_ H]. apply append_empty in H as [-> _].
  unfold ci_equal in Hci. cbn in Hci. inversion Hci as [Hq |].
  by destruct q.
Qed.

Lemma text_match_narrows query query' t :
  ci_substring query query' -> text_match query' t -> text_match query t.
Proof.
  intros Hq [-> | H].
  - left. by apply ci_substring_of_empty.
  - right. destruct H as [H | [H | [H | H]]];
      [left | right; left | right; right; left | right; right; right];
      by eapply ci_substring_trans.
Qed.

Lemma filter_sublist_mono (p1 p2 : Threat.t -> bool) displayed :
  (forall t, p1 t = true -> p2 t = true) ->
  List.filter p1 displayed `sublist_of` List.filter p2 displayed.
Proof.
  intros H. induction displayed as [| t l IH]; cbn; [constructor |].
  destruct (p1 t) eqn:E1.
  - rewrite (H t E1). by constructor.
  - destruct (p2 t); [by constructor | exact IH].
Qed.

(** A longer search text never adds results, on ASCII text: when the two
    queries and the searched fields of the displayed list are ASCII text
    and the first query occurs, up to case, in the second, the threats
    that match the second query are among those that match the first, in
    the same order, and there are no more of them. *)
Theorem longer_query_narrows query query' filterType displayed :
  ascii_text query displayed -> ascii_text query' displayed ->
  ci_substring query query' ->
  filteredThreats query' filterType displayed
    `sublist_of` filteredThreats query filterType displayed
  /\ (matchCount query' filterType displayed <= matchCount query filterType displayed)%nat.
Proof.
  intros _ _ Hq.
  assert (Hsub : filteredThreats query' filterType displayed
                   `sublist_of` filteredThreats query filterType displayed).
  { unfold filteredThreats. apply filter_sublist_mono. intros t Ht.
    apply matches_spec in Ht as [Htext Htype]. apply matches_spec.
    split; [by eapply text_match_narrows | exact Htype]. }
  split; [exact Hsub |]. unfold matchCount. by apply sublist_length.
Qed.

Lemma longer_query_narrows_witness :
  (matchCount "SQL Inj" "all" MOCK_THREAT_LOGS <= matchCount "sql" "all" MOCK_THREAT_LOGS)%nat.
Proof.
  apply (proj2 (longer_query_narrows "sql" "SQL Inj" "all" MOCK_THREAT_LOGS
                  ltac:(split; vm_compute; reflexivity)
                  ltac:(split; vm_compute; reflexivity)
                  ltac:(apply includes_lower_spec; reflexivity))).
Defined.

Lemma filter_filter (p1 p2 : Threat.t -> bool) displayed :
  List.filter p1 (List.filter p2 displayed)
  = List.filter (fun t => (p2 t && p1 t)%bool) displayed.
Proof.
  induction displayed as [| t l IH]; [reflexivity |]. cbn.
  destruct (p2 t); cbn; [destruct (p1 t) |]; by rewrite IH.
Qed.

(** The search and the type filter are independent: filtering by both is
    filtering by the type and then by the text, or by the text and then by
    the type, and filtering a filtered list again changes nothing. *)
Theorem filters_compose query filterType displayed :
  filteredThreats query filterType displayed
    = filteredThreats query "all" (filteredThreats "" filterType displayed)
  /\ filteredThreats query filterType displayed
     = filteredThreats "" filterType (filteredThreats query "all" displayed)
  /\ filteredThreats query filterType (filteredThreats query filterType displayed)
     = filteredThreats query filterType displayed.
Proof.
  unfold filteredThreats. rewrite !filter_filter.
  repeat split; apply filter_ext_in; intros t;
    destruct (matchesSearch query t), (matchesFilter filterType t); cbn; tauto.
Qed.

End FilterControls.

(* ===================================================================== *)
(** * The dashboard over a run *)
(* ===================================================================== *)

Section Runs.

Import App.

Implicit Types (s : Dashboard) (e : Event).

Lemma rebootTimeout_frame s s' :
  rebootTimeout s = Some s' ->
  selectedThreat s' = selectedThreat s
  /\ liveThreats s' = liveThreats s
  /\ isBackendConnected s' = isBackendConnected s
  /\ toast s' = toast s
  /\ attackAlert s' = attackAlert s
  /\ isAlertAcknowledged s' = isAlertAcknowledged s
  /\ searchQuery s' = searchQuery s
  /\ filterType s' = filterType s
  /\ posted s' = posted s.
Proof.
  unfold rebootTimeout, rebootTimeoutBody. intros H.
  destruct (timeouts s) as [| [i cap] rest]; [by injection H as <- |].
  cbn in H.
  destruct (cap !! i) as [r |]; [| discriminate H]. cbn in H.
  destruct (objects s !! r) as [o |]; [| discriminate H]. cbn in H.
  destruct (<[r:=_]> (objects s) !! r) as [o1 |]; [| discriminate H]. cbn in H.
  by injection H as <-.
Qed.

Lemma step_keeps_nodes e s s' :
  (forall t, e <> StreamThreat t) -> e <> RebootTimeout -> step e s = Some s' ->
  nodes s' = nodes s /\ objects s' = objects s.
Proof.
  intros Hne Hnr Hs.
  destruct e as [threats | newThreat | | | | t | | query | ftype | | ip out | | i |];
    cbn [step] in Hs.
  - injection Hs as <-. unfold onSeed. by destruct (0 <? length threats)%nat.
  - by destruct (Hne newThreat).
  - destruct (attackAlert s); [destruct (isAlertAcknowledged s) |]; by injection Hs as <-.
  - destruct (attackAlert s); by injection Hs as <-.
  - destruct (attackAlert s); by injection Hs as <-.
  - by injection Hs as <-.
  - by injection Hs as <-.
  - by injection Hs as <-.
  - by injection Hs as <-.
  - destruct (selectedThreat s); by injection Hs as <-.
  - destruct (handleBlockIP_resume_state ip out s)
      as (s2 & E & _ & _ & _ & _ & _ & Hn & Ho & _).
    rewrite E in Hs. by injection Hs as <-.
  - by injection Hs as <-.
  - injection Hs as <-. unfold clickReboot.
    destruct (i <? length (nodes s))%nat; [| done]. by destruct (isRebooting s i).
  - contradiction.
Qed.

Lemma step_keeps_store e s s' :
  (forall t, e <> StreamThreat t) -> (forall ts, e <> Seed ts) -> step e s = Some s' ->
  liveThreats s' = liveThreats s /\ isBackendConnected s' = isBackendConnected s.
Proof.
  intros Hne Hns Hs.
  destruct e as [threats | newThreat | | | | t | | query | ftype | | ip out | | i |];
    cbn [step] in Hs.
  - by destruct (Hns threats).
  - by destruct (Hne newThreat).
  - destruct (attackAlert s); [destruct (isAlertAcknowledged s) |]; by injection Hs as <-.
  - destruct (attackAlert s); by injection Hs as <-.
  - destruct (attackAlert s); by injection Hs as <-.
  - by injection Hs as <-.
  - by injection Hs as <-.
  - by injection Hs as <-.
  - by injection Hs as <-.
  - destruct (selectedThreat s); by injection Hs as <-.
  - destruct (handleBlockIP_resume_state ip out s) as (s2 & E & Hl & Hc & _).
    rewrite E in Hs. by injection Hs as <-.
  - by injection Hs as <-.
  - injection Hs as <-. unfold clickReboot.
    destruct (i <? length (nodes s))%nat; [| done]. by destruct (isRebooting s i).
  - apply rebootTimeout_frame in Hs. tauto.
Qed.

(** Induction over the reachable states. *)
Lemma reachable_invariant (P : Dashboard -> Prop) :
  P initial ->
  (forall e s s', nodes_ok s -> P s -> step e s = Some s' -> P s') ->
  forall s, reachable s -> P s.
Proof.
  intros Hinit Hstep s [es Hrun].
  assert (H : forall es s0, nodes_ok s0 -> P s0 -> run es s0 = Some s -> P s).
  { clear es Hrun. induction es as [| e es IH]; intros s0 Hok HP Hrun; cbn [run] in Hrun.
    - by injection Hrun as <-.
    - destruct (step e s0) as [s1 |] eqn:E; [| discriminate Hrun]. cbn in Hrun.
      apply (IH s1); [by eapply step_nodes_ok | by eapply Hstep | exact Hrun]. }
  by apply (H es initial nodes_ok_initial).
Qed.

(** No event throws in a reachable state: the node that the arrival of a
    threat and the end of a reboot write to always exists, so every
    sequence of events runs to its end. *)
Theorem no_uncaught_exception s (es : list Event) :
  reachable s -> exists s', run es s = Some s' /\ reachable s'.
Proof.
  intros Hreach.
  destruct (run_total es s (reachable_nodes_ok s Hreach)) as [s' E].
  exists s'. split; [exact E |].
  destruct Hreach as [es0 E0]. exists (es0 ++ es)%list.
  rewrite run_app, E0. exact E.
Qed.

Lemma no_uncaught_exception_witness :
  exists s', run [RebootClick 2; StreamThreat (sample "d"); RebootTimeout] seeded_abc = Some s'
    /\ reachable s'.
Proof.
  apply no_uncaught_exception.
  exists [Seed [sample "a"; sample "b"; sample "c"]]. reflexivity.
Defined.

(** ** The alert *)

(** The alert is the three-state machine of its description: every event
    moves the state of the alert as [alert_transition] says.  An arrival
    makes the arriving threat the current alert; no other event replaces
    the current alert by another threat. *)
Theorem alert_state_machine e s s' :
  nodes_ok s -> step e s = Some s' ->
  alertState s' = alert_transition e (alertState s)
  /\ (forall t, e = StreamThreat t -> attackAlert s' = Some t)
  /\ ((forall t, e <> StreamThreat t) ->
        attackAlert s' = attackAlert s \/ attackAlert s' = None).
Proof.
  intros Hok Hs.
  destruct e as [threats | newThreat | | | | t | | query | ftype | | ip out | | i |];
    cbn [step] in Hs; cbn [alert_transition].
  - injection Hs as <-. unfold onSeed.
    destruct (0 <? length threats)%nat; (split; [reflexivity |]);
      (split; [intros x H; discriminate H | by left]).
  - assert (exists n0, nodeAt s 0 = Some n0) as [n0 H0].
    { destruct Hok as (Hn & Hl & _). unfold nodeAt. rewrite Hn. cbn.
      destruct (objects s) as [| o l]; [discriminate Hl | by eexists]. }
    destruct (onThreat_effect s newThreat n0 Hok H0)
      as (s2 & E & _ & _ & Ha & Hk & _).
    rewrite E in Hs. injection Hs as <-.
    split; [unfold alertState; by rewrite Ha, Hk |].
    split; [intros t H; by injection H as <- |].
    intros H. by destruct (H newThreat).
  - unfold alertState.
    destruct (attackAlert s) eqn:Ea; [destruct (isAlertAcknowledged s) eqn:Ek |];
      injection Hs as <-; cbn; rewrite ?Ea, ?Ek;
      (split; [reflexivity |]); (split; [intros x H; discriminate H | by left]).
  - unfold alertState. destruct (attackAlert s) eqn:Ea; injection Hs as <-; cbn;
      rewrite ?Ea; (split; [reflexivity |]);
      (split; [intros x H; discriminate H | by right]).
  - unfold alertState. destruct (attackAlert s) eqn:Ea; injection Hs as <-; cbn;
      rewrite ?Ea; (split; [reflexivity |]);
      (split; [intros x H; discriminate H | by right]).
  - injection Hs as <-. split; [reflexivity |].
    split; [intros x H; discriminate H | by left].
  - injection Hs as <-. split; [reflexivity |].
    split; [intros x H; discriminate H | by left].
  - injection Hs as <-. split; [reflexivity |].
    split; [intros x H; discriminate H | by left].
  - injection Hs as <-. split; [reflexivity |].
    split; [intros x H; discriminate H | by left].
  - destruct (selectedThreat s); injection Hs as <-; (split; [reflexivity |]);
      (split; [intros x H; discriminate H | by left]).
  - destruct (handleBlockIP_resume_state ip out s)
      as (s2 & E & _ & _ & Ha & Hk & _).
    rewrite E in Hs. injection Hs as <-.
    split; [unfold alertState; by rewrite Ha, Hk |].
    split; [intros x H; discriminate H | by left].
  - injection Hs as <-. split; [reflexivity |].
    split; [intros x H; discriminate H | by left].
  - injection Hs as <-.
    assert (Hc : attackAlert (clickReboot i s) = attackAlert s
                 /\ isAlertAcknowledged (clickReboot i s) = isAlertAcknowledged s).
    { unfold clickReboot. destruct (i <? length (nodes s))%nat; [| done].
      by destruct (isRebooting s i). }
    destruct Hc as [Ha Hk].
    split; [unfold alertState; by rewrite Ha, Hk |].
    split; [intros x H; discriminate H | by left].
  - apply rebootTimeout_frame in Hs as (_ & _ & _ & _ & Ha & Hk & _).
    split; [unfold alertState; by rewrite Ha, Hk |].
    split; [intros x H; discriminate H | by left].
Qed.

Lemma alert_state_machine_witness :
  exists s', step Acknowledge seeded_abc = Some s' /\ alertState s' = Idle.
Proof.
  exists seeded_abc. split; [reflexivity |].
  apply (proj1 (alert_state_machine Acknowledge seeded_abc seeded_abc
                  ltac:(repeat split; constructor) eq_refl)).
Defined.

Lemma arrival_or_not e : (exists t, e = StreamThreat t) \/ (forall t, e <> StreamThreat t).
Proof. destruct e; (by left; eexists) || (by right). Qed.

Lemma seed_or_not e : (exists ts, e = Seed ts) \/ (forall ts, e <> Seed ts).
Proof. destruct e; (by left; eexists) || (by right). Qed.

Lemma timeout_or_not e : e = RebootTimeout \/ e <> RebootTimeout.
Proof. destruct e; (by left) || (by right). Qed.

(** ** The connected flag and the live store *)

Lemma updater_nonempty (newThreat : Threat.t) (store : list Threat.t) :
  liveThreatsUpdater newThreat store <> [].
Proof.
  unfold liveThreatsUpdater.
  destruct (existsb _ store) eqn:E; [| discriminate].
  destruct store; [discriminate E | discriminate].
Qed.

(** In every reachable state the dashboard is connected exactly when the
    live store is not empty, and no event disconnects it or empties the
    store: once live data is displayed, the display never falls back to
    the demonstration corpus alone. *)
Theorem connected_iff_live_store s :
  reachable s ->
  (isBackendConnected s = true <-> liveThreats s <> [])
  /\ (forall e s',
        step e s = Some s' -> isBackendConnected s = true ->
        isBackendConnected s' = true /\ liveThreats s' <> []
        /\ exists pad, allThreats (isBackendConnected s') (liveThreats s')
                        = (liveThreats s' ++ pad)%list).
Proof.
  intros Hreach.
  assert (Hstep : forall e s0 s1,
            nodes_ok s0 ->
            (isBackendConnected s0 = true <-> liveThreats s0 <> []) ->
            step e s0 = Some s1 ->
            (isBackendConnected s1 = true <-> liveThreats s1 <> [])
            /\ (isBackendConnected s0 = true -> isBackendConnected s1 = true)).
  { intros e s0 s1 Hok HP Hs.
    destruct (arrival_or_not e) as [[t ->] | Hna].
    { assert (exists n0, nodeAt s0 0 = Some n0) as [n0 H0].
      { destruct Hok as (Hn & Hl & _). unfold nodeAt. rewrite Hn. cbn.
        destruct (objects s0) as [| o l]; [discriminate Hl | by eexists]. }
      destruct (onThreat_effect s0 t n0 Hok H0) as (s2 & E & Hl & Hc & _).
      cbn [step] in Hs. rewrite E in Hs. injection Hs as <-.
      rewrite Hl, Hc. split; [| done].
      split; [intros _; apply updater_nonempty | done]. }
    destruct (seed_or_not e) as [[ts ->] | Hns].
    { cbn [step] in Hs. injection Hs as <-. unfold onSeed.
      destruct ts as [| t ts]; cbn; [done |]. split; [| done]. by split. }
    destruct (step_keeps_store e s0 s1 Hna Hns Hs) as [Hl Hc].
    rewrite Hl, Hc. by split. }
  assert (HP : isBackendConnected s = true <-> liveThreats s <> []).
  { revert s Hreach. apply reachable_invariant; [by split |].
    intros e s0 s1 Hok HP0 Hs. by destruct (Hstep e s0 s1 Hok HP0 Hs). }
  split; [exact HP |].
  intros e s' Hs Hc.
  destruct (Hstep e s s' (reachable_nodes_ok s Hreach) HP Hs) as [HP' Hmono].
  pose proof (Hmono Hc) as Hc'. pose proof (proj1 HP' Hc') as Hl'.
  split; [exact Hc' |]. split; [exact Hl' |].
  eexists. rewrite Hc'. by apply allThreats_live.
Qed.

Lemma connected_iff_live_store_witness :
  isBackendConnected seeded_abc = true <-> liveThreats seeded_abc <> [].
Proof.
  apply (proj1 (connected_iff_live_store seeded_abc
                  ltac:(exists [Seed [sample "a"; sample "b"; sample "c"]]; reflexivity))).
Defined.

(** ** The nodes *)

(** Node identity is stable: in every reachable state there are exactly
    three nodes, with the ids, names and regions they started with; the
    request counters of the second and the third node never change, and
    the third node is never under attack. *)
Theorem nodes_identity_stable s : reachable s -> nodes_stable s.
Proof.
  revert s. apply reachable_invariant.
  { unfold nodes_stable. eexists _, _, _. repeat split. discriminate. }
  intros e s s' Hok (o0 & o1 & o2 & H0 & H1 & H2 & H3 & I0 & I1 & I2 & R1 & R2 & S2) Hs.
  destruct (arrival_or_not e) as [[t ->] | Hna].
  { destruct (onThreat_effect s t o0 Hok H0) as (s2 & E & _ & _ & _ & _ & Hn0 & Hfr & _).
    cbn [step] in Hs. rewrite E in Hs. injection Hs as <-.
    eexists _, o1, o2. split; [exact Hn0 |].
    rewrite !Hfr by lia. repeat split; assumption. }
  destruct (timeout_or_not e) as [-> | Hnr].
  { cbn [step] in Hs. destruct (timeouts s) as [| [i cap] rest] eqn:Et.
    - unfold rebootTimeout in Hs. rewrite Et in Hs. injection Hs as <-.
      exists o0, o1, o2. repeat split; assumption.
    - destruct (rebootTimeout_effect s i cap rest Hok Et)
        as (s2 & o & E & Hn & _ & _ & Hn' & Hfr & _).
      rewrite E in Hs. injection Hs as <-.
      pose proof (nodeAt_some s i o Hok Hn) as Hi.
      destruct i as [| [| [| i]]]; [| | | lia].
      + rewrite H0 in Hn. injection Hn as <-.
        exists (rebooted o0), o1, o2.
        split; [exact Hn' |]. rewrite (Hfr 1%nat), (Hfr 2%nat), (Hfr 3%nat) by lia.
        repeat split; assumption.
      + rewrite H1 in Hn. injection Hn as <-.
        exists o0, (rebooted o1), o2.
        split; [by rewrite (Hfr 0%nat) by lia |]. split; [exact Hn' |].
        rewrite (Hfr 2%nat), (Hfr 3%nat) by lia. repeat split; assumption.
      + rewrite H2 in Hn. injection Hn as <-.
        exists o0, o1, (rebooted o2).
        split; [by rewrite (Hfr 0%nat) by lia |].
        split; [by rewrite (Hfr 1%nat) by lia |]. split; [exact Hn' |].
        rewrite (Hfr 3%nat) by lia. repeat split; try assumption.
        unfold rebooted. cbn. by destruct (NodeStatus.status o2). }
  destruct (step_keeps_nodes e s s' Hna Hnr Hs) as [Hn Ho].
  exists o0, o1, o2. unfold nodeAt. rewrite Hn, Ho. repeat split; assumption.
Qed.

Lemma nodes_identity_stable_witness : nodes_stable seeded_abc.
Proof.
  apply nodes_identity_stable.
  exists [Seed [sample "a"; sample "b"; sample "c"]]. reflexivity.
Defined.

(** ** From the alert to the block request *)

(** Viewing the details of an alert hands its threat over to the detail
    view and makes the alert idle; a block request made from there carries
    the ip of that threat, and a success reply closes the detail view
    again. *)
Theorem view_details_then_block s (t : Threat.t) (msg : string) :
  attackAlert s = Some t ->
  exists s1 s2,
    run [ViewDetails; BlockIPClick] s = Some s1
    /\ selectedThreat s1 = Some t
    /\ alertState s1 = Idle
    /\ posted s1 = (posted s ++ [Threat.ip t])%list
    /\ step (BlockIPResume (Threat.ip t)
               (Api.Resolved (Api.mkResponse true (Some (Api.mkBlockResult true msg))))) s1
       = Some s2
    /\ selectedThreat s2 = None
    /\ toast s2 = Some (mkToast msg toast_success)
    /\ posted s2 = posted s1.
Proof.
  intros Ha. eexists _, _. cbn [run step]. rewrite Ha. cbn. rewrite Ha. cbn.
  split; [reflexivity |]. split; [exact Ha |].
  do 3 (split; [reflexivity |]). repeat split.
Qed.

Lemma view_details_then_block_witness :
  exists s1,
    run [ViewDetails; BlockIPClick] (setAttackAlert (Some (sample "a")) initial) = Some s1
    /\ posted s1 = ["192.0.2.7"].
Proof.
  destruct (view_details_then_block (setAttackAlert (Some (sample "a")) initial)
              (sample "a") "ok" eq_refl)
    as (s1 & s2 & E & _ & _ & Hp & _).
  exists s1. split; [exact E | exact Hp].
Defined.

End Runs.

(* ===================================================================== *)
(** * Authentication *)
(* ===================================================================== *)

Section Authentication.

Import Auth.

Implicit Types (p : Provider) (storage : option Stored) (page : LoginPage).

Lemma login_cases (u pw : string) p storage :
  (u = ADMIN_username /\ pw = ADMIN_password
   /\ login u pw p storage
      = (true, mkProvider true (Some u), Some (Text (Some (JObject (Some u))))))
  \/ (~ (u = ADMIN_username /\ pw = ADMIN_password)
      /\ login u pw p storage = (false, p, storage)).
Proof.
  unfold login.
  destruct (String.eqb_spec u ADMIN_username) as [Hu | Hu];
    destruct (String.eqb_spec pw ADMIN_password) as [Hp | Hp]; cbn;
    [left; by repeat split | right .. ]; (split; [tauto | reflexivity]).
Qed.

(** Submitting the login form.  The page ends not loading.  With the user
    name admin and the password honeypot123, exactly as written, the
    provider becomes authenticated as admin, the session is stored, no
    error is shown and the dashboard is rendered.  With anything else the
    provider and the storage are unchanged and the page shows the error
    message; an error shown before is replaced either way. *)
Theorem login_submit_outcome page p storage :
  exists page' p' storage',
    handleSubmit page p storage = (page', p', storage')
    /\ isLoading page' = false
    /\ username page' = username page /\ password page' = password page
    /\ (username page = "admin" /\ password page = "honeypot123" ->
          error page' = ""
          /\ p' = mkProvider true (Some "admin")
          /\ AppContent p' = ShowDashboard
          /\ onMount storage' initial = Some p')
    /\ (~ (username page = "admin" /\ password page = "honeypot123") ->
          error page' = "Invalid credentials. Access denied."
          /\ p' = p /\ storage' = storage).
Proof.
  unfold handleSubmit. cbn [username password showPassword error isLoading].
  destruct (login_cases (username page) (password page) p storage)
    as [(Hu & Hp & ->) | (Hne & ->)]; cbn; eexists _, _, _;
    (split; [reflexivity |]); cbn.
  - repeat split; try tauto. all: by rewrite Hu.
  - repeat split; tauto.
Qed.

Lemma login_submit_outcome_witness :
  exists page' p' storage',
    handleSubmit (mkLoginPage "admin" "honeypot123" false "old error" false) initial None
      = (page', p', storage')
    /\ error page' = "" /\ AppContent p' = ShowDashboard.
Proof.
  destruct (login_submit_outcome (mkLoginPage "admin" "honeypot123" false "old error" false)
              initial None)
    as (page' & p' & storage' & E & _ & _ & _ & Hok & _).
  exists page', p', storage'. split; [exact E |].
  destruct (Hok (conj eq_refl eq_refl)) as (He & _ & Ha & _). by split.
Defined.

(** The session.  What a successful login stores brings a provider that
    mounts later to the same state, authenticated as the same user; after
    a logout nothing is stored and a provider that mounts stays
    unauthenticated.  The mount checks no credentials: it authenticates
    exactly when the stored text is not empty and parses to a value other
    than null, with whatever user name that value carries. *)
Theorem session_round_trip (u pw : string) p storage :
  (forall p' storage',
     login u pw p storage = (true, p', storage') ->
     onMount storage' initial = Some p'
     /\ AppContent p' = ShowDashboard
     /\ onMount (logout p' storage').2 initial = Some initial
     /\ AppContent (logout p' storage').1 = ShowLoginPage)
  /\ (forall p',
        onMount storage initial = Some p' ->
        (isAuthenticated p' = true
         <-> exists json, storage = Some (Text (Some json)) /\ json <> JNull)
        /\ (forall name, storage = Some (Text (Some (JObject name))) -> user p' = name)).
Proof.
  split.
  - intros p' storage' H.
    destruct (login_cases u pw p storage) as [(_ & _ & E) | (_ & E)];
      rewrite E in H; [| discriminate H].
    injection H as <- <-. by repeat split.
  - intros p' H.
    destruct storage as [[| [[| name |] |]] |]; cbn in H; try discriminate H;
      injection H as <-; cbn; split;
      try (split; [discriminate | intros (j & Hj & Hn); discriminate Hj]);
      try (split; [intros _; eexists; split; [reflexivity | discriminate]
                  | reflexivity]);
      try (intros n Hn; by injection Hn as <-);
      try (intros n Hn; discriminate Hn).
Qed.

Lemma session_round_trip_witness :
  onMount (login "admin" "honeypot123" initial None).2 initial
  = Some (mkProvider true (Some "admin")).
Proof.
  apply (proj1 (session_round_trip "admin" "honeypot123" initial None)
           (mkProvider true (Some "admin")) _ eq_refl).
Defined.

End Authentication.
